(** * headless-controller: the reactive controller base of the headless layer

    A shallow embedding of [buildController] (controller/headless-controller.ts):
    the closure variable [prevState], the helper [hasStateChanged], the
    method [subscribe] and the callback it hands to the engine.

    The file has these parts.
    - [Json]: the JavaScript values a derived state is made of, which are
      the serialization-safe ones (null, booleans, numbers, strings, arrays
      and plain objects) with objects held by reference in a heap, so that
      sharing, fresh copies and cycles exist; and the built-in
      [JSON.stringify] on them. [JsonText] has what it takes to read a text
      back.
    - [Controller]: the world the code runs in (engine state, the engine's
      callback registry, one [prevState] per [buildController] call, the
      observable trace of listener calls and console warnings), a state and
      exception monad over it, and the source functions written in it.
    - [Scenario]: a store of items and controllers over it, for the
      examples.
    - [ProductListing]: the product listing slice of the commerce engine,
      with the JavaScript numbers its positions are computed in.
    - [Alloc] and [RangeFacet]: JSON data put on the heap, and the core
      range facet, a controller built on [buildController].
    - the properties: of [JSON.stringify], of the callbacks and the
      notification, then the claims of the specification one by one, and
      further properties of the controller, the slice and the facet. *)

From Stdlib Require Import ZArith String Ascii List Bool Lia.
From stdpp Require Import base option list gmap strings pretty.

Local Open Scope string_scope.
Local Open Scope nat_scope.
Local Open Scope list_scope.
Set Warnings "-register-all".

(** ** JavaScript values and JSON.stringify *)

Module Json.

Definition loc := nat.

(** A JavaScript value: a primitive, or a reference to an object on the heap.
    Numbers are the integer-valued ones. *)
Inductive jsval :=
| JNull
| JBool (b : bool)
| JNum (z : Z)
| JStr (s : string)
| JRef (l : loc).

(** A heap object: an array, or a plain object whose own enumerable
    properties are listed in enumeration order. *)
Inductive jsobj :=
| JArr (items : list jsval)
| JObj (fields : list (string * jsval)).

(** What a [state] getter returns: a value together with the heap its
    references point into. *)
Record jsstate := JsState { js_heap : gmap loc jsobj; js_root : jsval }.

(** The finite tree a value denotes once references are followed. *)
Inductive jtree :=
| TNull
| TBool (b : bool)
| TNum (z : Z)
| TStr (s : string)
| TArr (items : list jtree)
| TObj (fields : list (string * jtree)).

(** Following references, as JSON.stringify walks a value: [stack] holds the
    objects being serialized (the ancestors); meeting one of them again is
    the circular-structure error, rendered here as [None]. A reference that
    points nowhere has no tree either. [fuel] bounds the depth of descent. *)
Fixpoint unfold_val (fuel : nat) (h : gmap loc jsobj) (stack : list loc)
  (v : jsval) : option jtree :=
  match v with
  | JNull => Some TNull
  | JBool b => Some (TBool b)
  | JNum z => Some (TNum z)
  | JStr s => Some (TStr s)
  | JRef l =>
    match fuel with
    | O => None
    | S fuel' =>
      if decide (l ∈ stack) then None
      else match h !! l with
           | None => None
           | Some (JArr items) =>
             TArr <$> mapM (unfold_val fuel' h (l :: stack)) items
           | Some (JObj fields) =>
             TObj <$> mapM (λ kv, pair (fst kv)
                                    <$> unfold_val fuel' h (l :: stack) (snd kv))
                           fields
           end
    end
  end.

(** A path of distinct heap objects is never longer than the heap, so this
    much fuel is never used up (see [unfold_val_fuel]). *)
Definition unfold (s : jsstate) : option jtree :=
  unfold_val (S (size (js_heap s))) (js_heap s) [] (js_root s).

(** QuoteJSONString on one code unit. *)
Definition dquote : ascii := ascii_of_nat 34.
Definition backslash : ascii := ascii_of_nat 92.

Definition hex_digit (n : nat) : ascii :=
  if Nat.ltb n 10 then ascii_of_nat (48 + n) else ascii_of_nat (87 + n).

Definition escape_unit (a : ascii) : string :=
  let n := nat_of_ascii a in
  if Nat.eqb n 34 then String backslash (String dquote "")
  else if Nat.eqb n 92 then String backslash (String backslash "")
  else if Nat.eqb n 8 then String backslash "b"
  else if Nat.eqb n 9 then String backslash "t"
  else if Nat.eqb n 10 then String backslash "n"
  else if Nat.eqb n 12 then String backslash "f"
  else if Nat.eqb n 13 then String backslash "r"
  else if Nat.ltb n 32 then
    String backslash ("u00" +:+ String (hex_digit (n / 16))
                                  (String (hex_digit (n mod 16)) ""))
  else String a "".

Fixpoint escape (s : string) : string :=
  match s with
  | EmptyString => ""
  | String a s' => escape_unit a +:+ escape s'
  end.

Definition quote (s : string) : string :=
  String dquote (escape s +:+ String dquote "").

(** SerializeJSONProperty on a tree, without indentation. *)
Fixpoint print (t : jtree) : string :=
  match t with
  | TNull => "null"
  | TBool true => "true"
  | TBool false => "false"
  | TNum z => pretty z
  | TStr s => quote s
  | TArr items => "[" +:+ String.concat "," (map print items) +:+ "]"
  | TObj fields =>
    "{" +:+ String.concat ","
              (map (λ kv, quote (fst kv) +:+ ":" +:+ print (snd kv)) fields)
        +:+ "}"
  end.

(** [JSON.stringify(v)]: the text, or [None] where JavaScript throws a
    TypeError. *)
Definition JSON_stringify (s : jsstate) : option string :=
  print <$> unfold s.

(** Two derived states are deep-structurally equal when following their
    references yields the same finite tree, whatever the references are. *)
Definition deep_equal (s1 s2 : jsstate) : Prop :=
  ∃ t, unfold s1 = Some t ∧ unfold s2 = Some t.

(** The same objects at other addresses: what a store hands out when it
    rebuilds unchanged data. *)
Definition relocate_val (σ : loc → loc) (v : jsval) : jsval :=
  match v with
  | JRef l => JRef (σ l)
  | _ => v
  end.

Definition relocate_obj (σ : loc → loc) (o : jsobj) : jsobj :=
  match o with
  | JArr items => JArr (relocate_val σ <$> items)
  | JObj fields => JObj ((λ kv, (fst kv, relocate_val σ (snd kv))) <$> fields)
  end.

Definition relocate (σ : loc → loc) (s : jsstate) : jsstate :=
  JsState (kmap σ (relocate_obj σ <$> js_heap s)) (relocate_val σ (js_root s)).

End Json.

Import Json.
Arguments JSON_stringify : simpl never.

(** ** Reading a JSON text

    What is needed to tell a value from its text: the characters of a text,
    the separators of a list, and the inverse of the escaping of one code
    unit. *)

Module JsonText.

Abbreviation chars := list_ascii_of_string.

(** The characters of a joined list. *)
Fixpoint join (parts : list (list ascii)) : list ascii :=
  match parts with
  | [] => []
  | [x] => x
  | x :: rest => x ++ "," %char :: join rest
  end.

(** Decimal digits. *)
Definition is_digit (c : ascii) : bool :=
  let n := nat_of_ascii c in Nat.leb 48 n && Nat.leb n 57.

(** What may follow a value: nothing, or a character that is no digit. *)
Definition ends_number (r : list ascii) : Prop :=
  match r with
  | [] => True
  | c :: _ => is_digit c = false
  end.

(** Reading one escaped code unit back. *)
Definition hex_value (c : ascii) : nat :=
  let n := nat_of_ascii c in if Nat.ltb n 58 then n - 48 else n - 87.

Definition decode_unit (l : list ascii) : option (ascii * list ascii) :=
  match l with
  | [] => None
  | c :: rest =>
    if Nat.eqb (nat_of_ascii c) 92 then
      match rest with
      | [] => None
      | e :: rest' =>
        let n := nat_of_ascii e in
        if Nat.eqb n 34 then Some (dquote, rest')
        else if Nat.eqb n 92 then Some (backslash, rest')
        else if Nat.eqb n 98 then Some (ascii_of_nat 8, rest')
        else if Nat.eqb n 116 then Some (ascii_of_nat 9, rest')
        else if Nat.eqb n 110 then Some (ascii_of_nat 10, rest')
        else if Nat.eqb n 102 then Some (ascii_of_nat 12, rest')
        else if Nat.eqb n 114 then Some (ascii_of_nat 13, rest')
        else match rest' with
             | _ :: _ :: h1 :: h2 :: rest'' =>
               Some (ascii_of_nat (16 * hex_value h1 + hex_value h2), rest'')
             | _ => None
             end
      end
    else Some (c, rest)
  end.

(** The characters of a printed tree. *)
Definition tree_chars (t : jtree) : list ascii := chars (print t).
Definition field_chars (kv : string * jtree) : list ascii :=
  chars (quote (fst kv)) ++ ":"%char :: tree_chars (snd kv).

(** A value is told from its first character. *)
Definition kind (t : jtree) : nat :=
  match t with
  | TNull => 0 | TBool _ => 1 | TNum _ => 2 | TStr _ => 3
  | TArr _ => 4 | TObj _ => 5
  end.

Definition kind_of_char (c : ascii) : nat :=
  let n := nat_of_ascii c in
  if Nat.eqb n 110 then 0
  else if Nat.eqb n 116 || Nat.eqb n 102 then 1
  else if is_digit c || Nat.eqb n 45 then 2
  else if Nat.eqb n 34 then 3
  else if Nat.eqb n 91 then 4
  else if Nat.eqb n 123 then 5
  else 6.

(** After an element of a list comes a comma or the closing bracket. *)
Definition after (close : ascii) (rest : list (list ascii)) (r : list ascii)
  : list ascii :=
  match rest with
  | [] => close :: r
  | _ => ","%char :: join rest ++ close :: r
  end.

End JsonText.

Import JsonText.

(** ** The world of a controller, and the source functions *)

Section Controller.

(** The shape of the engine's state, [T] in [buildController<T>]. *)
Context {T : Type}.

(** A listener [() => void] is opaque to the controller: calling it is
    observable, and it either returns or throws, which may depend on the
    engine state it finds. [l_id] is the identity of the function object.
    Listeners that re-enter the engine are outside this model. *)
Record listener := Listener { l_id : nat; l_throws : T → bool }.

(** The object [subscribe] is called on: which [prevState] variable its
    closure captured, and its [state] getter, a function of the engine's
    current state. *)
Record controller := Ctrl { c_closure : nat; c_state : T → jsstate }.

(** The arrow function handed to [engine.subscribe]: it captured [this] and
    [listener]. *)
Record callback := Callback { cb_this : controller; cb_listener : listener }.

Inductive event :=
| Called (l : nat)          (* listener(), for the listener of that identity *)
| Warned.                   (* console.warn(...) *)

Inductive exn :=
| TypeError                 (* thrown by JSON.stringify *)
| ListenerError (l : nat).  (* thrown by a listener *)

Inductive result (A : Type) :=
| Ok (a : A)
| Throw (e : exn).
Arguments Ok {A} a.
Arguments Throw {A} e.

Record World := MkWorld {
  w_state : T;                        (* engine.state *)
  w_subs : list (nat * callback);     (* the engine's callbacks, oldest first *)
  w_next : nat;                       (* next unsubscribe handle *)
  w_isolate : bool;                   (* go on after a callback throws? *)
  prevState : gmap nat string;        (* prevState of each closure; absent: undefined *)
  w_cells : nat;                      (* next prevState variable *)
  w_trace : list event                (* what has been observed so far *)
}.

Definition set_state (s : T) (w : World) : World :=
  MkWorld s (w_subs w) (w_next w) (w_isolate w) (prevState w) (w_cells w)
          (w_trace w).
Definition set_subs (l : list (nat * callback)) (w : World) : World :=
  MkWorld (w_state w) l (w_next w) (w_isolate w) (prevState w) (w_cells w)
          (w_trace w).
Definition set_next (n : nat) (w : World) : World :=
  MkWorld (w_state w) (w_subs w) n (w_isolate w) (prevState w) (w_cells w)
          (w_trace w).
Definition set_prevState (p : gmap nat string) (w : World) : World :=
  MkWorld (w_state w) (w_subs w) (w_next w) (w_isolate w) p (w_cells w)
          (w_trace w).
Definition set_cells (n : nat) (w : World) : World :=
  MkWorld (w_state w) (w_subs w) (w_next w) (w_isolate w) (prevState w) n
          (w_trace w).
Definition log (e : event) (w : World) : World :=
  MkWorld (w_state w) (w_subs w) (w_next w) (w_isolate w) (prevState w)
          (w_cells w) (w_trace w ++ [e]).

(** State and exceptions: effects made before a throw stay. *)
Definition M (A : Type) : Type := World → result A * World.

Definition ret {A} (a : A) : M A := λ w, (Ok a, w).
Definition bind {A B} (m : M A) (k : A → M B) : M B :=
  λ w, match m w with
       | (Ok a, w') => k a w'
       | (Throw e, w') => (Throw e, w')
       end.
Definition throw {A} (e : exn) : M A := λ w, (Throw e, w).
Definition try_catch {A} (m : M A) (handler : exn → M A) : M A :=
  λ w, match m w with
       | (Ok a, w') => (Ok a, w')
       | (Throw e, w') => handler e w'
       end.
Definition gets {A} (f : World → A) : M A := λ w, (Ok (f w), w).
Definition modify (f : World → World) : M unit := λ w, (Ok tt, f w).

#[export] Instance M_ret : MRet M := @ret.
#[export] Instance M_bind : MBind M := λ A B k m, bind m k.

(** [listener()] *)
Definition call (l : listener) : M unit :=
  modify (log (Called (l_id l)));;
  seen ← gets w_state;
  if l_throws l seen then throw (ListenerError (l_id l)) else ret tt.

(** [JSON.stringify(v)] as a statement. *)
Definition stringify (v : jsstate) : M string :=
  match JSON_stringify v with
  | Some s => ret s
  | None => throw TypeError
  end.

(** [this.state]: the getter reads the engine's current state. *)
Definition this_state (this : controller) : M jsstate :=
  gets (λ w, c_state this (w_state w)).

(** Modelled from the spec: the engine ([Engine] of app/headless-engine, a
    store) is a collaborator outside the sources at hand. [engine.subscribe]
    registers a callback to be invoked after every state transition and
    returns the function that removes it; the handle stands for that
    function. *)
Definition engine_subscribe (cb : callback) : M nat :=
  λ w, (Ok (w_next w),
        set_next (S (w_next w)) (set_subs (w_subs w ++ [(w_next w, cb)]) w)).

(** Modelled from the spec: the unsubscribe function removes the internal
    callback from the store; calling it again is a no-op. *)
Definition unsubscribe (handle : nat) : M unit :=
  modify (λ w, set_subs (filter (λ r, fst r ≠ handle) (w_subs w)) w).

(** [buildController(engine)]: a new [prevState], undefined, and the base
    [state] getter, which returns an empty object. *)
Definition empty_object : jsstate := JsState {[ 0 := JObj [] ]} (JRef 0).

Definition buildController : M controller :=
  λ w, (Ok (Ctrl (w_cells w) (λ _, empty_object)), set_cells (S (w_cells w)) w).

(** [{...controller, get state() { ... }}]: a concrete controller keeps the
    closure of the base and overrides the getter. *)
Definition with_state (c : controller) (getter : T → jsstate) : controller :=
  Ctrl (c_closure c) getter.

(** [hasStateChanged], a closure over the [prevState] numbered [p]. *)
Definition hasStateChanged (p : nat) (currentState : jsstate) : M bool :=
  try_catch
    (stringifiedState ← stringify currentState;
     prev ← gets (λ w, prevState w !! p);
     let hasChanged := negb (bool_decide (prev = Some stringifiedState)) in
     modify (λ w, set_prevState (<[p := stringifiedState]> (prevState w)) w);;
     ret hasChanged)
    (λ e, modify (log Warned);; ret true).

(** The callback [() => { if (hasStateChanged(this.state)) listener(); }]. *)
Definition on_update (cb : callback) : M unit :=
  currentState ← this_state (cb_this cb);
  changed ← hasStateChanged (c_closure (cb_this cb)) currentState;
  if (changed : bool) then call (cb_listener cb) else ret tt.

(** [subscribe(listener)], called on [this]. *)
Definition subscribe (this : controller) (l : listener) : M nat :=
  call l;;
  currentState ← this_state this;
  stringifiedState ← stringify currentState;
  modify (λ w, set_prevState
                 (<[c_closure this := stringifiedState]> (prevState w)) w);;
  engine_subscribe (Callback this l).

(** Modelled from the spec: after a state transition the store calls the
    registered callbacks, oldest first. A callback that throws fails the
    notification; whether the later callbacks still run is the store's
    choice, [w_isolate]. *)
Fixpoint notify (cbs : list (nat * callback)) : M unit :=
  match cbs with
  | [] => ret tt
  | r :: rest =>
    λ w, match on_update (snd r) w with
         | (Ok _, w') => notify rest w'
         | (Throw e, w') =>
           if w_isolate w' then (Throw e, snd (notify rest w'))
           else (Throw e, w')
         end
  end.

(** Modelled from the spec: a store update is a state transition followed
    by the notification of every registered callback. *)
Definition dispatch (f : T → T) : M unit :=
  modify (λ w, set_state (f (w_state w)) w);;
  registered ← gets w_subs;
  notify registered.

(** The world a computation leaves, and how it ends. *)
Definition exec {A} (m : M A) (w : World) : World := snd (m w).
Definition outcome {A} (m : M A) (w : World) : result A := fst (m w).

(** The callback as the specification words it: serialize and compare; if
    different, invoke the listener, then update the stored snapshot; if
    identical, do nothing; a failed serialization warns and counts as a
    change. It is compared with [on_update] below. *)
Definition on_update_as_specified (cb : callback) : M unit :=
  currentState ← this_state (cb_this cb);
  serialized ← try_catch (s ← stringify currentState; ret (Some s))
                         (λ e, modify (log Warned);; ret None);
  match serialized with
  | None => call (cb_listener cb)
  | Some s =>
    prev ← gets (λ w, prevState w !! c_closure (cb_this cb));
    if bool_decide (prev = Some s) then ret tt
    else call (cb_listener cb);;
         modify (λ w, set_prevState
                        (<[c_closure (cb_this cb) := s]> (prevState w)) w)
  end.

(** What the application does with a controller and the engine, one call
    at a time; an exception of one call is the caller's to handle and does
    not stop the calls after it. *)
Inductive action :=
| DoSubscribe (this : controller) (l : listener)
| DoUnsubscribe (handle : nat)
| DoDispatch (f : T → T).

Definition perform (a : action) (w : World) : World :=
  match a with
  | DoSubscribe this l => exec (subscribe this l) w
  | DoUnsubscribe handle => exec (unsubscribe handle) w
  | DoDispatch f => exec (dispatch f) w
  end.

Definition perform_all (acts : list action) (w : World) : World :=
  fold_left (λ w a, perform a w) acts w.

End Controller.

Arguments Ok {A} a.
Arguments Throw {A} e.
Arguments World : clear implicits.
Arguments controller : clear implicits.
Arguments callback : clear implicits.
Arguments action : clear implicits.
Arguments listener : clear implicits.
Arguments M : clear implicits.

#[export] Instance event_eq_dec : EqDecision event.
Proof. solve_decision. Defined.

(** How many times the listener of identity [l] was called in a trace. *)
Definition calls (l : nat) (tr : list event) : nat :=
  length (filter (λ e, e = Called l) tr).
Arguments calls : simpl never.

(** The listeners called in a trace, in order. *)
Definition called (tr : list event) : list nat :=
  omap (λ e, match e with Called l => Some l | Warned => None end) tr.

(** The listeners of a registry, in registration order. *)
Definition listeners_of {T} (subs : list (nat * callback T)) : list nat :=
  (λ r, l_id (cb_listener (snd r))) <$> subs.

(** The callbacks a controller closure has in the store's registry. *)
Definition registrations_of {T} (p : nat) (w : World T)
  : list (nat * callback T) :=
  filter (λ r, c_closure (cb_this (snd r)) = p) (w_subs w).

(** The engine's own fields, which are beyond the reach of a callback. *)
Definition same_engine {T} (w w' : World T) : Prop :=
  w_state w' = w_state w ∧ w_subs w' = w_subs w ∧ w_next w' = w_next w
  ∧ w_isolate w' = w_isolate w ∧ w_cells w' = w_cells w.

(** A registry in which controller [this] is the only user of its closure
    and the only one to have subscribed the listener [id]. *)
Definition exclusive {T} (this : controller T) (id : nat)
    (cbs : list (nat * callback T)) : Prop :=
  ∀ r, r ∈ cbs →
    c_closure (cb_this (snd r)) = c_closure this
    ∨ l_id (cb_listener (snd r)) = id →
    cb_this (snd r) = this.

(** The handles in use are below the next one. *)
Definition handles_fresh {T} (w : World T) : Prop :=
  ∀ r, r ∈ w_subs w → fst r < w_next w.

(** ** A concrete engine and controllers, for the examples *)

Module Scenario.

(** The engine holds a list of items. Every transition builds its objects
    anew; [epoch] numbers the transitions and gives the address of the
    objects a getter creates. *)
Record store := Store { items : list string; epoch : nat }.

(** [get state() { return {count: items.length}; }] *)
Definition count_state (st : store) : jsstate :=
  JsState
    {[ epoch st := JObj [("count", JNum (Z.of_nat (length (items st))))] ]}
    (JRef (epoch st)).

(** An object that refers to itself: [const s = {}; s.self = s]. *)
Definition circular : jsstate :=
  JsState {[ 0 := JObj [("self", JRef 0)] ]} (JRef 0).

(** A getter whose object is circular while the engine has no item. *)
Definition fragile_state (st : store) : jsstate :=
  match items st with
  | [] => circular
  | _ => count_state st
  end.

(** A store with no subscriber yet, in which [buildController] has run
    once: [base] is what it returned. *)
Definition engine0 (xs : list string) (isolate : bool) : World store :=
  exec buildController (MkWorld (Store xs 0) [] 0 isolate ∅ 0 []).
Definition base : controller store := Ctrl 0 (λ _, empty_object).

Definition fn1 : listener store := Listener 1 (λ _, false).
Definition fn2 : listener store := Listener 2 (λ _, false).

(** A listener that throws when it finds three items. *)
Definition picky : listener store :=
  Listener 3 (λ st, Nat.eqb (length (items st)) 3).

(** Concrete controllers: [{...base, get state() { ... }}]. *)
Definition counter : controller store := with_state base count_state.
Definition fragile : controller store := with_state base fragile_state.

(** Store updates: append an item; replace the items by a copy of
    themselves; remove them all; put the single item ["a"] back. *)
Definition append_c (st : store) : store :=
  Store (items st ++ ["c"]) (S (epoch st)).
Definition replace_same (st : store) : store :=
  Store (map (λ x, x) (items st)) (S (epoch st)).
Definition clear (st : store) : store := Store [] (S (epoch st)).
Definition restore_a (st : store) : store := Store ["a"] (S (epoch st)).

(** The text of [{count: n}]. *)
Definition count_text (n : Z) : string := print (TObj [("count", TNum n)]).

(** [picky] subscribed to [counter] over two items; then the world in which
    the store has appended a third item and is about to notify. *)
Definition picky_subscribed : World store :=
  exec (subscribe counter picky) (engine0 ["a"; "b"] false).
Definition picky_notified : World store :=
  set_state (append_c (w_state picky_subscribed)) picky_subscribed.

(** [fn1], then [fn2], subscribed to the same controller over two items. *)
Definition both_subscribed : World store :=
  exec (subscribe counter fn1;; subscribe counter fn2)
       (engine0 ["a"; "b"] false).

(** [fn1] alone subscribed to [counter] over two items. *)
Definition fn1_subscribed : World store :=
  exec (subscribe counter fn1) (engine0 ["a"; "b"] false).

(** [fn1] subscribed to [fragile] over one item, and the items then removed:
    the derived state has become circular. *)
Definition fragile_cleared : World store :=
  exec (subscribe fragile fn1;; dispatch clear) (engine0 ["a"] false).

End Scenario.

(** ** More of the controller's surroundings *)

(** The closures in use were made by earlier calls of [buildController]. *)
Definition closures_allocated {T} (w : World T) : Prop :=
  ∀ r, r ∈ w_subs w → c_closure (cb_this (snd r)) < w_cells w.

(** A controller is the only user of its closure in a registry. *)
Definition owns_closure {T} (this : controller T)
    (cbs : list (nat * callback T)) : Prop :=
  ∀ r, r ∈ cbs →
    c_closure (cb_this (snd r)) = c_closure this → cb_this (snd r) = this.

Module Scenario2.

Import Scenario.

(** A second controller, from a second call of [buildController], with the
    same [state] getter as [counter]. *)
Definition base2 : controller store := Ctrl 1 (λ _, empty_object).
Definition counter2 : controller store := with_state base2 count_state.

(** A store on which [buildController] has run twice. *)
Definition engine00 (xs : list string) (isolate : bool) : World store :=
  exec buildController (engine0 xs isolate).

(** A third listener, and three subscriptions to one controller. *)
Definition fn3 : listener store := Listener 4 (λ _, false).
Definition three_subscribed : World store :=
  exec (subscribe counter fn1;; subscribe counter fn2;; subscribe counter fn3)
       (engine0 ["a"; "b"] false).

(** [fn1] subscribed to [counter] and [fn2] to [counter2]: one listener per
    controller, two controllers over one store. *)
Definition one_each : World store :=
  exec (subscribe counter fn1;; subscribe counter2 fn2)
       (engine00 ["a"; "b"] false).

End Scenario2.

(** ** The product listing slice of the commerce engine

    [productListingReducer] of features/commerce/product-listing. The
    reducer is written with mutations of a draft; here every case returns
    the next state. *)

Module ProductListing.

(** The JavaScript numbers the slice computes with: the doubles that are
    integers, the two infinities and NaN. Page numbers, page sizes and array
    indices are such numbers. The sign of zero is not told apart; [+] and
    [*] do not tell it apart either, except in the sign of zero itself. *)
Inductive number :=
| Int (z : Z)
| Infinity (negative : bool)
| NaN.

(** The double nearest to an integer, ties to the even significand; past
    the largest double, infinity. Below 2^53 every integer is a double;
    from 2^(52+e) on, the doubles are the multiples of 2^e. *)
Definition to_double (z : Z) : number :=
  let a := Z.abs z in
  if (a <? 2 ^ 53)%Z then Int z
  else
    let e := (Z.log2 a - 52)%Z in
    let q := (a / 2 ^ e)%Z in
    let r := (a mod 2 ^ e)%Z in
    let half := (2 ^ (e - 1))%Z in
    let q' := if (r <? half)%Z then q
              else if (half <? r)%Z then (q + 1)%Z
              else if Z.even q then q else (q + 1)%Z in
    let m := (q' * 2 ^ e)%Z in
    if (2 ^ 1024 <=? m)%Z then Infinity (z <? 0)%Z
    else Int (Z.sgn z * m)%Z.

(** [x + y] *)
Definition number_add (x y : number) : number :=
  match x, y with
  | NaN, _ | _, NaN => NaN
  | Infinity s, Infinity s' => if Bool.eqb s s' then Infinity s else NaN
  | Infinity s, Int _ | Int _, Infinity s => Infinity s
  | Int a, Int b => to_double (a + b)
  end.

(** [x * y] *)
Definition number_mul (x y : number) : number :=
  match x, y with
  | NaN, _ | _, NaN => NaN
  | Infinity s, Infinity s' => Infinity (xorb s s')
  | Infinity s, Int a | Int a, Infinity s =>
    if (a =? 0)%Z then NaN else Infinity (xorb s (a <? 0)%Z)
  | Int a, Int b => to_double (a * b)
  end.

Section Slice.

(** [A] stands for the fields of a product that the reducer only copies
    (name, price, ...), [F] for the facets of a response and [E] for the
    error response of the API. *)
Context {A F E : Type}.

(** [ChildProduct]: a product without [children] and
    [totalNumberOfChildren]. *)
Record ChildProduct := Child { c_permanentid : string; c_fields : A }.

(** [BaseProduct], as the API returns it. *)
Record BaseProduct := Base {
  b_permanentid : string;
  b_fields : A;
  b_children : list ChildProduct;
  b_totalNumberOfChildren : Z
}.

(** [Product]: a [BaseProduct] and its [position] in the listing. *)
Record Product := Prod {
  permanentid : string;
  fields : A;
  children : list ChildProduct;
  totalNumberOfChildren : Z;
  position : number
}.

Record Pagination := Page { page : number; perPage : number }.

(** [CommerceSuccessResponse] *)
Record Response := Resp {
  r_products : list BaseProduct;
  r_facets : F;
  r_responseId : string;
  pagination : Pagination
}.

(** [QueryCommerceAPIThunkReturn] *)
Record Payload := Pay { response : Response }.

(** [ProductListingState]; [error] is [None] for null. *)
Record ProductListingState := State {
  error : option E;
  isLoading : bool;
  products : list Product;
  facets : F;
  responseId : string;
  requestId : string
}.

(** [handleError(state, error?)]: [error || null]; an error response is an
    object, so it is truthy when present. *)
Definition handleError (state : ProductListingState) (err : option E)
  : ProductListingState :=
  State err false (products state) (facets state) (responseId state)
        (requestId state).

Definition handleFullfilled (state : ProductListingState) (r : Response)
  : ProductListingState :=
  State None false (products state) (r_facets r) (r_responseId r)
        (requestId state).

Definition handlePending (state : ProductListingState) (id : string)
  : ProductListingState :=
  State (error state) true (products state) (facets state) (responseId state)
        id.

(** [pagination.page * pagination.perPage] *)
Definition getPaginationOffset (payload : Payload) : number :=
  number_mul (page (pagination (response payload)))
             (perPage (pagination (response payload))).

(** [{children, totalNumberOfChildren, ...restOfProduct} = product] *)
Definition restOfProduct (product : BaseProduct) : ChildProduct :=
  Child (b_permanentid product) (b_fields product).

Definition preprocessProduct (product : BaseProduct) (position : number)
  : Product :=
  let isParentAlreadyInChildren :=
    existsb (λ child, String.eqb (c_permanentid child) (b_permanentid product))
            (b_children product) in
  if Nat.eqb (length (b_children product)) 0 || isParentAlreadyInChildren
  then Prod (b_permanentid product) (b_fields product) (b_children product)
            (b_totalNumberOfChildren product) position
  else Prod (b_permanentid product) (b_fields product)
            (restOfProduct product :: b_children product)
            (b_totalNumberOfChildren product) position.

(** [response.products.map((product, index) =>
      preprocessProduct(product, paginationOffset + index + 1))]: the sum
    is [(paginationOffset + index) + 1], each addition rounded. *)
Definition preprocessed (payload : Payload) : list Product :=
  imap (λ index product,
          preprocessProduct product
            (number_add
               (number_add (getPaginationOffset payload)
                           (Int (Z.of_nat index)))
               (Int 1)))
       (r_products (response payload)).

Definition set_products (ps : list Product) (state : ProductListingState)
  : ProductListingState :=
  State (error state) (isLoading state) ps (facets state) (responseId state)
        (requestId state).

(** [product.children.find(child => child.permanentid === id)] *)
Definition find_child (id : string) (cs : list ChildProduct)
  : option ChildProduct :=
  List.find (λ child, String.eqb (c_permanentid child) id) cs.

(** [products.findIndex(product => { childToPromote = ...; return
    !!childToPromote; })], with the variable [childToPromote] that the
    arrow function assigns on every visit: the index found ([None] for -1)
    and the value the variable holds when the search ends. [i] is the index
    of the head of [ps]. *)
Fixpoint findIndex (id : string) (ps : list Product) (i : nat)
    (childToPromote : option ChildProduct)
  : option nat * option ChildProduct :=
  match ps with
  | [] => (None, childToPromote)
  | product :: ps' =>
    match find_child id (children product) with
    | Some child => (Some i, Some child)
    | None => findIndex id ps' (S i) None
    end
  end.

(** [products.splice(i, 1, x)], for [i] from 0 on: past the end it adds
    [x] at the end. *)
Definition splice1 {X} (i : nat) (x : X) (l : list X) : list X :=
  take i l ++ x :: drop (S i) l.

(** The case of [promoteChildToParent]. The index comes from [findIndex],
    so [products[currentParentIndex]] is a product of the list
    ([findIndex_lookup] below); the last branch is never taken. *)
Definition promote (state : ProductListingState) (child : ChildProduct)
  : ProductListingState :=
  match findIndex (c_permanentid child) (products state) 0 None with
  | (Some currentParentIndex, Some childToPromote) =>
    match products state !! currentParentIndex with
    | Some parent =>
      let newParent :=
        Prod (c_permanentid childToPromote) (c_fields childToPromote)
             (children parent) (totalNumberOfChildren parent)
             (position parent) in
      set_products (splice1 currentParentIndex newParent (products state))
                   state
    | None => state
    end
  | _ => state
  end.

(** The actions the reducer has a case for; every other action leaves the
    state as it is. The payload of [fetchMoreProducts.fulfilled] may be
    missing. *)
Inductive Action :=
| fetchProductListing_rejected (payload : option E)
| fetchMoreProducts_rejected (payload : option E)
| fetchProductListing_fulfilled (payload : Payload)
| fetchMoreProducts_fulfilled (payload : option Payload)
| fetchProductListing_pending (requestId : string)
| fetchMoreProducts_pending (requestId : string)
| promoteChildToParent (child : ChildProduct)
| setView
| setContext
| other_action.

(** [getProductListingInitialState()] is defined in product-listing-state,
    outside the sources at hand: the reducer is given its result. *)
Definition productListingReducer (initial : ProductListingState)
    (state : ProductListingState) (action : Action) : ProductListingState :=
  match action with
  | fetchProductListing_rejected payload => handleError state payload
  | fetchMoreProducts_rejected payload => handleError state payload
  | fetchProductListing_fulfilled payload =>
    set_products (preprocessed payload)
                 (handleFullfilled state (response payload))
  | fetchMoreProducts_fulfilled None => state
  | fetchMoreProducts_fulfilled (Some payload) =>
    set_products (products state ++ preprocessed payload)
                 (handleFullfilled state (response payload))
  | fetchProductListing_pending id => handlePending state id
  | fetchMoreProducts_pending id => handlePending state id
  | promoteChildToParent child => promote state child
  | setView => initial
  | setContext => initial
  | other_action => state
  end.

(** A product with children has, among them, one with its own
    [permanentid]. *)
Definition lists_itself (p : Product) : Prop :=
  children p ≠ [] →
  ∃ c, c ∈ children p ∧ c_permanentid c = permanentid p.

(** The products are numbered from [first] on, in list order. *)
Definition numbered_from (first : Z) (ps : list Product) : Prop :=
  ∀ k p, ps !! k = Some p → position p = Int (first + Z.of_nat k).

(** The actions that fetch nothing and do not reset the listing. *)
Definition keeps_listing (a : Action) : bool :=
  match a with
  | fetchProductListing_fulfilled _ | fetchMoreProducts_fulfilled (Some _)
  | setView | setContext => false
  | _ => true
  end.

End Slice.

Arguments ChildProduct : clear implicits.
Arguments BaseProduct : clear implicits.
Arguments Product : clear implicits.
Arguments Response : clear implicits.
Arguments Payload : clear implicits.
Arguments ProductListingState : clear implicits.
Arguments Action : clear implicits.

(** A small catalogue for the examples: the fields of a product are its
    name; facets and errors are texts. *)
Definition shirt : BaseProduct string :=
  Base "shirt" "Shirt"
       [Child "shirt-red" "Red shirt"; Child "shirt-blue" "Blue shirt"] 2.
Definition mug : BaseProduct string := Base "mug" "Mug" [] 0.
Definition cap : BaseProduct string :=
  Base "cap" "Cap" [Child "cap" "Cap"; Child "cap-green" "Green cap"] 2.

Definition first_page : Payload string string :=
  Pay (Resp [shirt; mug] "facets-1" "response-1" (Page (Int 0) (Int 2))).
Definition second_page : Payload string string :=
  Pay (Resp [cap] "facets-2" "response-2" (Page (Int 1) (Int 2))).

(** A page far out: its offset is 2^53, where the doubles are the even
    integers. *)
Definition far_page : Payload string string :=
  Pay (Resp [mug; mug; mug] "facets-3" "response-3"
            (Page (Int (2 ^ 52)) (Int 2))).

Definition empty_listing : ProductListingState string string string :=
  State None false [] "" "" "".

(** The listing after the first page has arrived. *)
Definition listed : ProductListingState string string string :=
  productListingReducer empty_listing empty_listing
    (fetchProductListing_fulfilled first_page).

End ProductListing.

(** ** Objects from JSON data

    The data a store holds that came out of a JSON response is a finite
    tree of objects. [of_tree] puts such a tree on a heap, each object and
    array at an address of its own, so that a [state] getter that answers
    JSON data can be given to [JSON.stringify]. *)

Module Alloc.

(** Allocating the elements of a list one after the other, from address [m]
    on: the values, the objects made, and the next free address. *)
Fixpoint alloc_all {X Y} (f : X → loc → Y * gmap loc jsobj * loc)
    (xs : list X) (m : loc) : list Y * gmap loc jsobj * loc :=
  match xs with
  | [] => ([], ∅, m)
  | x :: xs' =>
    let '(y, h1, m1) := f x m in
    let '(ys, h2, m2) := alloc_all f xs' m1 in
    (y :: ys, h1 ∪ h2, m2)
  end.

(** An object is made before its parts. *)
Fixpoint alloc (t : jtree) (n : loc) : jsval * gmap loc jsobj * loc :=
  match t with
  | TNull => (JNull, ∅, n)
  | TBool b => (JBool b, ∅, n)
  | TNum z => (JNum z, ∅, n)
  | TStr s => (JStr s, ∅, n)
  | TArr items =>
    let '(vs, h, n') := alloc_all alloc items (S n) in
    (JRef n, <[n := JArr vs]> h, n')
  | TObj fields =>
    let '(vs, h, n') :=
      alloc_all (λ kt m, let '(v, h, m') := alloc (snd kt) m in
                         ((fst kt, v), h, m'))
                fields (S n) in
    (JRef n, <[n := JObj vs]> h, n')
  end.

Definition of_tree (t : jtree) : jsstate :=
  JsState (snd (fst (alloc t 0))) (fst (fst (alloc t 0))).

(** What an allocation from [n] promises: it uses the addresses from [n] up
    to the next free one, and following the value it answers, in any heap
    that has its objects, gives the tree back. *)
Definition allocated (t : jtree) (n : loc) (r : jsval * gmap loc jsobj * loc)
  : Prop :=
  n ≤ snd r
  ∧ (∀ l, is_Some (snd (fst r) !! l) → n ≤ l < snd r)
  ∧ ∀ H stack fuel, snd (fst r) ⊆ H →
      (∀ l, l ∈ stack → l < n ∨ snd r ≤ l) →
      snd r - n ≤ fuel →
      unfold_val fuel H stack (fst (fst r)) = Some t.

End Alloc.

Import Alloc.

(** ** The core range facet, a caller of [buildController]

    [buildCoreRangeFacet] of controllers/core/facets/range-facet. *)

Module RangeFacet.

(** [RangeFacetRequest], of which the facet reads the sort criterion
    (['ascending'] or ['descending']). *)
Record RangeFacetRequest := Request { sortCriteria : string }.

(** A facet value is an object, as its type says (a range with its [state]
    and its count): it is given by its properties, in enumeration order.
    The properties are JSON data of the search response. *)
Definition RangeFacetValue : Type := list (string * jtree).

(** [RangeFacetResponse], of which the facet reads the values. *)
Record RangeFacetResponse := Response { values : list RangeFacetValue }.

(** The actions the facet dispatches. *)
Inductive facet_action :=
| deselectAllFacetValues (facetId : string)
| updateFacetOptions (freezeFacetOrder : bool)
| updateRangeFacetSortCriterion (facetId : string) (criterion : string).

(** [o.key] on an object: the property, or [None] for undefined. *)
Definition property (key : string) (o : list (string * jtree))
  : option jtree :=
  snd <$> List.find (λ kv, String.eqb (fst kv) key) o.

(** [facetValue.state !== 'idle']: only the string ['idle'] is equal to
    ['idle']. *)
Definition is_active (facetValue : RangeFacetValue) : bool :=
  match property "state" facetValue with
  | Some (TStr s) => negb (String.eqb s "idle")
  | _ => true
  end.

Section Facet.

Context {T : Type}.

(** The props of the facet. [getRequest] reads the engine. *)
Variable facetId : string.
Variable getRequest : T → RangeFacetRequest.

(** The selectors of the facet set and the reducer of the engine are
    defined outside the sources at hand; the facet is modelled for any
    selectors and any reducer. [engine.dispatch(action)] is the store update
    by the reducer applied to the action. *)
Variable baseFacetResponseSelector : T → string → option RangeFacetResponse.
Variable isFacetLoadingResponseSelector : T → bool.
Variable reducer : facet_action → T → T.

(** [response ? response.values : []] *)
Definition current_values (engine_state : T) : list RangeFacetValue :=
  let response := baseFacetResponseSelector engine_state facetId in
  match response with
  | Some response => values response
  | None => []
  end.

(** [get state()]: the object it answers, by its properties. *)
Definition state (engine_state : T) : list (string * jtree) :=
  let request := getRequest engine_state in
  let sortCriterion := sortCriteria request in
  let values := current_values engine_state in
  let isLoading := isFacetLoadingResponseSelector engine_state in
  let hasActiveValues := existsb is_active values in
  [("facetId", TStr facetId);
   ("values", TArr (TObj <$> values));
   ("sortCriterion", TStr sortCriterion);
   ("hasActiveValues", TBool hasActiveValues);
   ("isLoading", TBool isLoading)].

(** [{...controller, ..., get state() { ... }}] over
    [buildController(engine)]: the facet has the [subscribe] and the closure
    of the base controller and its own [state]. *)
Definition extend (base : controller T) : controller T :=
  with_state base (λ engine_state, of_tree (TObj (state engine_state))).

Definition buildCoreRangeFacet : M T (controller T) :=
  controller ← buildController;
  mret (extend controller).

Definition deselectAll : M T unit :=
  dispatch (reducer (deselectAllFacetValues facetId));;
  dispatch (reducer (updateFacetOptions true)).

Definition sortBy (criterion : string) : M T unit :=
  dispatch (reducer (updateRangeFacetSortCriterion facetId criterion));;
  dispatch (reducer (updateFacetOptions true)).

(** [this.state.sortCriterion === criterion] *)
Definition isSortedBy (criterion : string) (engine_state : T) : bool :=
  match property "sortCriterion" (state engine_state) with
  | Some (TStr s) => String.eqb s criterion
  | _ => false
  end.

(** What the facet shows of the engine: the values, the sort criterion and
    the loading flag. *)
Definition shown (engine_state : T) : list RangeFacetValue * string * bool :=
  (current_values engine_state,
   sortCriteria (getRequest engine_state),
   isFacetLoadingResponseSelector engine_state).

(** Whether a store update changes what the facet shows: 1 if so. *)
Definition changes (before after : T) : nat :=
  if bool_decide (print (TObj (state after)) = print (TObj (state before)))
  then 0 else 1.

End Facet.

End RangeFacet.

(** A small search engine for the examples of the range facet: the request
    and the response of one facet, the loading flag and the facet
    options. *)
Module Scenario3.

Import RangeFacet.

Record search_state := Search {
  request : RangeFacetRequest;
  facet_response : option RangeFacetResponse;
  loading : bool;
  freezeFacetOrder : bool
}.

(** A range [start..end] with its selection state. *)
Definition range (first last : Z) (selection : string) : RangeFacetValue :=
  [("start", TNum first); ("end", TNum last); ("state", TStr selection)].

Definition deselect (facetValue : RangeFacetValue) : RangeFacetValue :=
  (λ kv, if String.eqb (fst kv) "state" then (fst kv, TStr "idle") else kv)
    <$> facetValue.

Definition search_reducer (a : facet_action) (st : search_state)
  : search_state :=
  match a with
  | deselectAllFacetValues _ =>
    Search (request st)
           ((λ r, Response (deselect <$> values r)) <$> facet_response st)
           (loading st) (freezeFacetOrder st)
  | updateFacetOptions b =>
    Search (request st) (facet_response st) (loading st) b
  | updateRangeFacetSortCriterion _ criterion =>
    Search (Request criterion) (facet_response st) (loading st)
           (freezeFacetOrder st)
  end.

Definition searched : search_state :=
  Search (Request "ascending")
         (Some (Response [range 0 10 "selected"; range 10 20 "idle"]))
         false false.

Definition price_state : search_state → list (string * jtree) :=
  state "price" request (λ st _, facet_response st) loading.

(** The facet over a store on which [buildController] has run once, and
    a listener of it. *)
Definition search_engine : World search_state :=
  exec buildController (MkWorld searched [] 0 false ∅ 0 []).
Definition price_facet : controller search_state :=
  extend "price" request (λ st _, facet_response st) loading
         (Ctrl 0 (λ _, empty_object)).
Definition watcher : listener search_state := Listener 7 (λ _, false).
Definition watched : World search_state :=
  exec (subscribe price_facet watcher) search_engine.

End Scenario3.

(** ** Properties *)

(** *** JSON.stringify *)

Section JsonFacts.

Implicit Types (h : gmap loc jsobj) (stack : list loc) (v : jsval).

(** Distinct objects of the heap cannot outnumber it. *)
Lemma stack_bounded h stack :
  NoDup stack → (∀ l, l ∈ stack → is_Some (h !! l)) → length stack ≤ size h.
Proof.
  intros Hnd Hin.
  rewrite <-(size_list_to_set (C:=gset loc) stack), <-(size_dom h) by done.
  apply subseteq_size. intros l Hl.
  apply elem_of_dom, Hin. by apply elem_of_list_to_set in Hl.
Qed.

(** Once the fuel covers the objects not yet on the stack, more fuel changes
    nothing: [None] then means a cycle or a dangling reference, never
    exhaustion. *)
Lemma unfold_val_fuel h n : ∀ stack v,
  NoDup stack → (∀ l, l ∈ stack → is_Some (h !! l)) →
  size h < n + length stack →
  unfold_val (S n) h stack v = unfold_val n h stack v.
Proof.
  induction n as [|n IH]; intros stack v Hnd Hin Hsz.
  - pose proof (stack_bounded h stack Hnd Hin). simpl in Hsz. lia.
  - destruct v as [| | | |l]; try reflexivity.
    cbn [unfold_val]. destruct (decide (l ∈ stack)) as [|Hl]; [done|].
    destruct (h !! l) as [o|] eqn:Hh; [|done].
    assert (Hnd' : NoDup (l :: stack)) by by constructor.
    assert (Hin' : ∀ l', l' ∈ l :: stack → is_Some (h !! l')).
    { intros l' [->|?]%elem_of_cons; eauto. }
    assert (Hsz' : size h < n + length (l :: stack)) by (simpl; lia).
    destruct o as [items|fields]; f_equal; apply mapM_ext; intros x.
    + by apply IH.
    + f_equal. by apply IH.
Qed.

Lemma unfold_fuel_enough (s : jsstate) n :
  size (js_heap s) < n →
  unfold_val n (js_heap s) [] (js_root s) = unfold s.
Proof.
  unfold unfold. induction n as [|n IH]; [lia|]. intros Hn.
  destruct (decide (n = size (js_heap s))) as [->|Hne]; [done|].
  rewrite <-IH by lia. apply unfold_val_fuel.
  - constructor.
  - intros l Hl. by apply elem_of_nil in Hl.
  - simpl. lia.
Qed.

(** Deep-structurally equal states have the same text. *)
Lemma deep_equal_stringify (s1 s2 : jsstate) :
  deep_equal s1 s2 → ∃ x, JSON_stringify s1 = Some x ∧ JSON_stringify s2 = Some x.
Proof.
  intros (t & H1 & H2). exists (print t).
  unfold JSON_stringify. by rewrite H1, H2.
Qed.

End JsonFacts.

(** *** New references for unchanged data *)

(** Moving the objects of a state to other addresses changes neither its
    tree nor, therefore, its text. *)
Section Relocation.

Context (σ : loc → loc) `{!Inj (=) (=) σ}.

Lemma mapM_fmap_compose {A B C} (f : B → option C) (g : A → B) (l : list A) :
  mapM f (g <$> l) = mapM (f ∘ g) l.
Proof. induction l as [|x l IH]; [done|]. cbn. by rewrite IH. Qed.

Lemma relocate_unfold_val (h : gmap loc jsobj) (n : nat) : ∀ stack v,
  unfold_val n (kmap σ (relocate_obj σ <$> h)) (σ <$> stack) (relocate_val σ v)
  = unfold_val n h stack v.
Proof.
  induction n as [|n IH]; intros stack [| | | |l]; try reflexivity.
  cbn [relocate_val unfold_val].
  rewrite (lookup_kmap σ), lookup_fmap.
  destruct (decide (σ l ∈ σ <$> stack)) as [Hin|Hin],
           (decide (l ∈ stack)) as [Hin'|Hin']; try done.
  - by apply (list_elem_of_fmap_inj_2 σ) in Hin.
  - by apply (list_elem_of_fmap_2 σ) in Hin'.
  - destruct (h !! l) as [[items|fields]|]; cbn; [| |done].
    + f_equal. rewrite mapM_fmap_compose. apply mapM_ext. intros x.
      apply (IH (l :: stack)).
    + f_equal. rewrite mapM_fmap_compose. apply mapM_ext. intros [k x]. cbn.
      f_equal. apply (IH (l :: stack)).
Qed.

Lemma relocate_unfold (s : jsstate) : unfold (relocate σ s) = unfold s.
Proof.
  set (n := S (max (size (js_heap s)) (size (js_heap (relocate σ s))))).
  rewrite <-(unfold_fuel_enough (relocate σ s) n) by lia.
  rewrite <-(unfold_fuel_enough s n) by lia.
  apply (relocate_unfold_val (js_heap s) n []).
Qed.

Lemma relocate_deep_equal (s : jsstate) :
  is_Some (unfold s) → deep_equal s (relocate σ s).
Proof. intros [t Ht]. exists t. by rewrite relocate_unfold. Qed.

End Relocation.

(** *** The text of a value determines the value *)

Section PrintInjective.

Lemma chars_inj s1 s2 : chars s1 = chars s2 → s1 = s2.
Proof.
  intros H. rewrite <-(string_of_list_ascii_of_string s1),
    <-(string_of_list_ascii_of_string s2). by rewrite H.
Qed.

Lemma chars_app s1 s2 : chars (s1 +:+ s2) = chars s1 ++ chars s2.
Proof. induction s1 as [|a s1 IH]; [done|]. simpl. by f_equal. Qed.

Lemma chars_concat (parts : list string) :
  chars (String.concat "," parts) = join (chars <$> parts).
Proof.
  induction parts as [|x [|y rest] IH]; [done|done|].
  change (String.concat "," (x :: y :: rest))
    with (x +:+ "," +:+ String.concat "," (y :: rest)).
  rewrite !chars_app, IH. done.
Qed.

Lemma digits_split (d1 d2 r1 r2 : list ascii) :
  Forall (λ c, is_digit c = true) d1 → Forall (λ c, is_digit c = true) d2 →
  ends_number r1 → ends_number r2 →
  d1 ++ r1 = d2 ++ r2 → d1 = d2 ∧ r1 = r2.
Proof.
  intros H1. revert d2. induction H1 as [|c1 d1 Hc1 _ IH]; intros d2 H2 Hr1 Hr2.
  - destruct H2 as [|c2 d2 Hc2 _]; [done|]. cbn. intros ->. cbn in Hr1. congruence.
  - destruct H2 as [|c2 d2 Hc2 H2]; cbn.
    + intros <-. cbn in Hr2. congruence.
    + intros [= -> Heq]. destruct (IH d2 H2 Hr1 Hr2 Heq) as [-> ->]. done.
Qed.

Lemma pretty_N_char_digit x : is_digit (pretty_N_char x) = true.
Proof. unfold pretty_N_char. by repeat case_match. Qed.

Lemma pretty_N_go_digits x : ∀ s,
  ∃ d, chars (pretty_N_go x s) = d ++ chars s
       ∧ Forall (λ c, is_digit c = true) d
       ∧ ((0 < x)%N → d ≠ []).
Proof.
  induction (N.lt_wf_0 x) as [x _ IH]; intros s.
  assert (x = 0 ∨ 0 < x)%N as [->|Hx] by lia.
  - exists []. rewrite pretty_N_go_0. split; [done|]. split; [done|lia].
  - rewrite pretty_N_go_step by done.
    destruct (IH (x `div` 10)%N (N.div_lt x 10 Hx eq_refl)
                 (String (pretty_N_char (x `mod` 10)) s)) as (d & -> & Hd & _).
    exists (d ++ [pretty_N_char (x `mod` 10)]). split; [|split].
    + cbn. by rewrite <-app_assoc.
    + apply Forall_app. split; [done|]. constructor; [|done].
      apply pretty_N_char_digit.
    + intros _. by destruct d.
Qed.

Lemma pretty_N_digits (x : N) :
  ∃ d, chars (pretty x) = d ∧ Forall (λ c, is_digit c = true) d ∧ d ≠ [].
Proof.
  unfold pretty, pretty_N. case_decide as Hx.
  - exists ["0"%char]. split; [done|]. split; [|done]. by repeat constructor.
  - destruct (pretty_N_go_digits x "") as (d & Hd & Hall & Hne).
    exists d. rewrite Hd. cbn. rewrite app_nil_r. split; [done|].
    split; [done|]. apply Hne. lia.
Qed.

Lemma pretty_Z_chars (z : Z) :
  ∃ d, Forall (λ c, is_digit c = true) d ∧ d ≠ []
       ∧ (chars (pretty z) = d ∨ chars (pretty z) = "-"%char :: d).
Proof.
  destruct z as [|p|p]; unfold pretty, pretty_Z.
  - exists ["0"%char]. split; [by repeat constructor|]. split; [done|by left].
  - destruct (pretty_N_digits (N.pos p)) as (d & Hd & Hall & Hne).
    exists d. split; [done|]. split; [done|]. by left.
  - destruct (pretty_N_digits (N.pos p)) as (d & Hd & Hall & Hne).
    exists d. split; [done|]. split; [done|]. right.
    change ("-" +:+ pretty p) with (String "-" (pretty p)). cbn. by rewrite <-Hd.
Qed.

Lemma number_split (z1 z2 : Z) (r1 r2 : list ascii) :
  ends_number r1 → ends_number r2 →
  chars (pretty z1) ++ r1 = chars (pretty z2) ++ r2 → z1 = z2 ∧ r1 = r2.
Proof.
  intros Hr1 Hr2 Heq.
  destruct (pretty_Z_chars z1) as (d1 & Hd1 & Hne1 & Hz1).
  destruct (pretty_Z_chars z2) as (d2 & Hd2 & Hne2 & Hz2).
  assert (chars (pretty z1) = chars (pretty z2) ∧ r1 = r2) as [Hz ->].
  { destruct Hz1 as [Hz1|Hz1], Hz2 as [Hz2|Hz2]; rewrite Hz1, Hz2 in *.
    - by destruct (digits_split d1 d2 r1 r2) as [-> ->].
    - destruct Hd1 as [|c d1 Hc _]; [done|]. by injection Heq as -> _.
    - destruct Hd2 as [|c d2 Hc _]; [done|]. by injection Heq as <- _.
    - injection Heq as Heq. by destruct (digits_split d1 d2 r1 r2) as [-> ->]. }
  split; [|done]. by apply (inj pretty), chars_inj.
Qed.

Lemma decode_escape_unit (a : ascii) (rest : list ascii) :
  decode_unit (chars (escape_unit a) ++ rest) = Some (a, rest).
Proof. destruct a as [[] [] [] [] [] [] [] []]; reflexivity. Qed.

Lemma escape_unit_head (a : ascii) (rest : list ascii) :
  ∃ c tail, chars (escape_unit a) ++ rest = c :: tail ∧ c ≠ dquote.
Proof.
  destruct a as [[] [] [] [] [] [] [] []];
    (eexists _, _; split; [reflexivity|discriminate]).
Qed.

Lemma escape_split (s : string) : ∀ (s' : string) (r r' : list ascii),
  chars (escape s) ++ dquote :: r = chars (escape s') ++ dquote :: r' →
  s = s' ∧ r = r'.
Proof.
  induction s as [|a s IH]; intros [|a' s'] r r'; cbn [escape];
    rewrite ?chars_app, <-?app_assoc.
  - by intros [= ->].
  - destruct (escape_unit_head a' (chars (escape s') ++ dquote :: r'))
      as (c & tail & -> & Hc). by intros [= <-].
  - destruct (escape_unit_head a (chars (escape s) ++ dquote :: r))
      as (c & tail & -> & Hc). by intros [= ->].
  - intros Heq. apply (f_equal decode_unit) in Heq.
    rewrite !decode_escape_unit in Heq. injection Heq as -> Heq.
    by destruct (IH _ _ _ Heq) as [-> ->].
Qed.

Lemma chars_quote (s : string) :
  chars (quote s) = dquote :: chars (escape s) ++ [dquote].
Proof. unfold quote. cbn [list_ascii_of_string]. by rewrite chars_app. Qed.

Lemma quote_split (s s' : string) (r r' : list ascii) :
  chars (quote s) ++ r = chars (quote s') ++ r' → s = s' ∧ r = r'.
Proof.
  rewrite !chars_quote. cbn [app]. rewrite <-!app_assoc. cbn [app].
  intros [= Heq]. by apply escape_split.
Qed.

Lemma chars_print_arr (items : list jtree) :
  tree_chars (TArr items) = "["%char :: join (tree_chars <$> items) ++ ["]"%char].
Proof.
  unfold tree_chars. cbn [print].
  change ("[" +:+ ?s) with (String "[" s). cbn [list_ascii_of_string].
  rewrite chars_app, chars_concat.
  assert (chars <$> map print items = tree_chars <$> items) as ->; [|done].
  induction items as [|x items IH]; [done|]. cbn. by f_equal.
Qed.

Lemma chars_print_obj (fields : list (string * jtree)) :
  tree_chars (TObj fields)
  = "{"%char :: join (field_chars <$> fields) ++ ["}"%char].
Proof.
  unfold tree_chars. cbn [print].
  change ("{" +:+ ?s) with (String "{" s). cbn [list_ascii_of_string].
  rewrite chars_app, chars_concat.
  assert (chars <$> map (λ kv, quote (fst kv) +:+ ":" +:+ print (snd kv)) fields
          = field_chars <$> fields) as ->; [|done].
  induction fields as [|x fields IH]; [done|]. cbn [map fmap list_fmap].
  f_equal; [|done]. unfold field_chars. by rewrite !chars_app.
Qed.

Lemma kind_of_digit (c : ascii) : is_digit c = true → kind_of_char c = 2.
Proof.
  destruct c as [[] [] [] [] [] [] [] []]; try discriminate; reflexivity.
Qed.

Lemma tree_chars_head (t : jtree) :
  ∃ c tail, tree_chars t = c :: tail ∧ kind_of_char c = kind t.
Proof.
  destruct t as [|[]|z|s|items|fields].
  - by eexists _, _.
  - by eexists _, _.
  - by eexists _, _.
  - unfold tree_chars. cbn [print].
    destruct (pretty_Z_chars z) as (d & Hd & Hne & [->| ->]).
    + destruct Hd as [|c d Hc _]; [done|]. exists c, d.
      split; [done|]. by apply kind_of_digit.
    + by eexists _, _.
  - unfold tree_chars. cbn [print]. rewrite chars_quote. by eexists _, _.
  - rewrite chars_print_arr. by eexists _, _.
  - rewrite chars_print_obj. by eexists _, _.
Qed.

Lemma join_cons (close : ascii) (x : list ascii) (rest : list (list ascii))
    (r : list ascii) :
  join (x :: rest) ++ close :: r = x ++ after close rest r.
Proof. destruct rest; [done|]. cbn. by rewrite <-app_assoc. Qed.

Lemma ends_number_after (close : ascii) (rest : list (list ascii))
    (r : list ascii) :
  is_digit close = false → ends_number (after close rest r).
Proof. intros Hclose. by destruct rest. Qed.

Lemma join_split {A} (enc : A → list ascii) (close : ascii) :
  is_digit close = false → close ≠ ","%char →
  (∀ x rest, ∃ c tail, enc x ++ rest = c :: tail ∧ c ≠ close) →
  ∀ xs,
    Forall (λ x, ∀ x' r r', ends_number r → ends_number r' →
                   enc x ++ r = enc x' ++ r' → x = x' ∧ r = r') xs →
    ∀ xs' r r',
      join (enc <$> xs) ++ close :: r = join (enc <$> xs') ++ close :: r' →
      xs = xs' ∧ r = r'.
Proof.
  intros Hclose Hcomma Hhead xs Hxs.
  induction Hxs as [|x xs Hx _ IH]; intros [|x' xs'] r r'.
  - by intros [= ->].
  - rewrite fmap_cons, join_cons.
    destruct (Hhead x' (after close (enc <$> xs') r')) as (c & tail & -> & Hc).
    by intros [= <-].
  - rewrite fmap_cons, join_cons.
    destruct (Hhead x (after close (enc <$> xs) r)) as (c & tail & -> & Hc).
    by intros [= ->].
  - rewrite !fmap_cons, !join_cons. intros Heq.
    apply Hx in Heq as [<- Heq].
    2,3: by apply ends_number_after.
    destruct xs as [|y xs], xs' as [|y' xs']; cbn [fmap list_fmap after] in Heq.
    + by injection Heq as ->.
    + by injection Heq.
    + by injection Heq.
    + injection Heq as Heq. by destruct (IH (y' :: xs') r r' Heq) as [<- <-].
Qed.

(** Induction on trees, with the subtrees of arrays and objects. *)
Lemma jtree_subtrees_ind (P : jtree → Prop) :
  P TNull → (∀ b, P (TBool b)) → (∀ z, P (TNum z)) → (∀ s, P (TStr s)) →
  (∀ items, Forall P items → P (TArr items)) →
  (∀ fields, Forall (λ kv, P (snd kv)) fields → P (TObj fields)) →
  ∀ t, P t.
Proof.
  intros Hnull Hbool Hnum Hstr Harr Hobj.
  fix IH 1. intros [|b|z|s|items|fields]; [done..| |].
  - apply Harr. induction items as [|x items IHitems]; constructor; [apply IH|done].
  - apply Hobj. induction fields as [|[k v] fields IHfields]; constructor;
      [apply IH|done].
Qed.

(** A printed value followed by anything that ends a number determines the
    value and what follows. *)
Lemma tree_chars_split (t : jtree) : ∀ (t' : jtree) (r r' : list ascii),
  ends_number r → ends_number r' →
  tree_chars t ++ r = tree_chars t' ++ r' → t = t' ∧ r = r'.
Proof.
  induction t as [|b|z|s|items IH|fields IH] using jtree_subtrees_ind;
    intros t' r r' Hr Hr' Heq.
  all: assert (Hkind : kind t' = kind _) by
    (destruct (tree_chars_head t') as (c' & tail' & Hc' & <-);
     match type of Heq with tree_chars ?t ++ _ = _ =>
       destruct (tree_chars_head t) as (c & tail & Hc & <-) end;
     rewrite Hc, Hc' in Heq; by injection Heq as -> _).
  all: destruct t'; try discriminate Hkind; clear Hkind.
  - by injection Heq as ->.
  - destruct b, b0; try discriminate Heq; by injection Heq as ->.
  - unfold tree_chars in Heq. cbn [print] in Heq.
    by destruct (number_split _ _ _ _ Hr Hr' Heq) as [-> ->].
  - unfold tree_chars in Heq. cbn [print] in Heq.
    by destruct (quote_split _ _ _ _ Heq) as [-> ->].
  - rewrite !chars_print_arr in Heq. cbn [app] in Heq.
    rewrite <-!app_assoc in Heq. injection Heq as Heq.
    destruct (join_split tree_chars "]"%char eq_refl) with (xs := items)
      (xs' := items0) (r := r) (r' := r') as [-> ->]; [done| |done|done|done].
    intros x rest. destruct (tree_chars_head x) as (c & tail & -> & Hc).
    eexists _, _. split; [done|]. intros ->. by destruct x.
  - rewrite !chars_print_obj in Heq. cbn [app] in Heq.
    rewrite <-!app_assoc in Heq. injection Heq as Heq.
    destruct (join_split field_chars "}"%char eq_refl) with (xs := fields)
      (xs' := fields0) (r := r) (r' := r') as [-> ->]; [done| | |done|done].
    + intros x rest. unfold field_chars. rewrite chars_quote. by eexists _, _.
    + eapply Forall_impl; [exact IH|]. cbn beta.
      intros [k v] IHv [k' v'] r1 r1' Hr1 Hr1'. unfold field_chars.
      cbn [fst snd] in *.
      rewrite <-!app_assoc. intros [-> Hv]%quote_split.
      injection Hv as Hv. by destruct (IHv _ _ _ Hr1 Hr1' Hv) as [-> ->].
Qed.

(** [print] is injective: the text of a tree determines the tree. *)
Lemma print_inj (t t' : jtree) : print t = print t' → t = t'.
Proof.
  intros Heq.
  destruct (tree_chars_split t t' [] []) as [-> _]; [done|done| |done].
  unfold tree_chars. by rewrite Heq.
Qed.

(** With [deep_equal_stringify]: two serializable states have the same text
    exactly when they are deep-structurally equal. *)
Lemma stringify_deep_equal (s1 s2 : jsstate) (x : string) :
  JSON_stringify s1 = Some x → JSON_stringify s2 = Some x → deep_equal s1 s2.
Proof.
  unfold JSON_stringify, deep_equal.
  destruct (unfold s1) as [t1|], (unfold s2) as [t2|]; try done.
  cbn. intros [= <-] [= Heq]. apply print_inj in Heq as ->. eauto.
Qed.

End PrintInjective.

Section Properties.

Context {T : Type}.
Implicit Types (w : World T) (this : controller T) (cb : callback T)
  (l : listener T) (f : T → T) (p : nat) (tr : list event).

(** *** Running the source functions *)

Lemma set_prevState_same w : set_prevState (prevState w) w = w.
Proof. by destruct w. Qed.

Lemma call_run l w :
  call l w = (if l_throws l (w_state w) then Throw (ListenerError (l_id l))
              else Ok tt,
              log (Called (l_id l)) w).
Proof.
  unfold call, mbind, M_bind, bind, modify, gets. cbn.
  by destruct (l_throws l _).
Qed.

Lemma hasStateChanged_serialized p v s w :
  JSON_stringify v = Some s →
  hasStateChanged p v w
  = (Ok (negb (bool_decide (prevState w !! p = Some s))),
     set_prevState (<[p := s]> (prevState w)) w).
Proof.
  intros Hs. unfold hasStateChanged, try_catch, stringify, mbind, M_bind, bind.
  by rewrite Hs.
Qed.

Lemma hasStateChanged_failed p v w :
  JSON_stringify v = None →
  hasStateChanged p v w = (Ok true, log Warned w).
Proof.
  intros Hs. unfold hasStateChanged, try_catch, stringify, mbind, M_bind, bind.
  by rewrite Hs.
Qed.

Lemma on_update_changed cb w s :
  JSON_stringify (c_state (cb_this cb) (w_state w)) = Some s →
  prevState w !! c_closure (cb_this cb) ≠ Some s →
  on_update cb w
  = call (cb_listener cb)
         (set_prevState (<[c_closure (cb_this cb) := s]> (prevState w)) w).
Proof.
  intros Hs Hne. unfold on_update, this_state, mbind, M_bind, bind, gets.
  rewrite (hasStateChanged_serialized _ _ s) by done.
  by rewrite bool_decide_eq_false_2.
Qed.

Lemma on_update_unchanged cb w s :
  JSON_stringify (c_state (cb_this cb) (w_state w)) = Some s →
  prevState w !! c_closure (cb_this cb) = Some s →
  on_update cb w = (Ok tt, w).
Proof.
  intros Hs He. unfold on_update, this_state, mbind, M_bind, bind, gets.
  rewrite (hasStateChanged_serialized _ _ s) by done.
  rewrite bool_decide_eq_true_2 by done. cbn. unfold ret.
  by rewrite insert_id, set_prevState_same.
Qed.

Lemma on_update_failed cb w :
  JSON_stringify (c_state (cb_this cb) (w_state w)) = None →
  on_update cb w = call (cb_listener cb) (log Warned w).
Proof.
  intros Hs. unfold on_update, this_state, mbind, M_bind, bind, gets.
  by rewrite hasStateChanged_failed.
Qed.

Lemma subscribe_run this l w :
  subscribe this l w
  = if l_throws l (w_state w)
    then (Throw (ListenerError (l_id l)), log (Called (l_id l)) w)
    else match JSON_stringify (c_state this (w_state w)) with
         | None => (Throw TypeError, log (Called (l_id l)) w)
         | Some s =>
           engine_subscribe (Callback this l)
             (set_prevState (<[c_closure this := s]> (prevState w))
                       (log (Called (l_id l)) w))
         end.
Proof.
  unfold subscribe, mbind, M_bind, bind at 1. rewrite call_run.
  destruct (l_throws l _); [done|].
  unfold this_state, stringify, bind, gets, modify, ret, throw.
  by destruct (JSON_stringify _).
Qed.

Lemma on_update_run cb w :
  on_update cb w
  = match JSON_stringify (c_state (cb_this cb) (w_state w)) with
    | None => call (cb_listener cb) (log Warned w)
    | Some s =>
      if bool_decide (prevState w !! c_closure (cb_this cb) = Some s) then (Ok tt, w)
      else call (cb_listener cb)
                (set_prevState (<[c_closure (cb_this cb) := s]> (prevState w)) w)
    end.
Proof.
  destruct (JSON_stringify _) as [s|] eqn:Hs.
  - case_bool_decide.
    + by apply (on_update_unchanged _ _ s).
    + by apply (on_update_changed _ _ s).
  - by apply on_update_failed.
Qed.

Lemma dispatch_run f w :
  dispatch f w = notify (w_subs w) (set_state (f (w_state w)) w).
Proof. reflexivity. Qed.

Lemma unsubscribe_run handle w :
  unsubscribe handle w
  = (Ok tt, set_subs (filter (λ r, fst r ≠ handle) (w_subs w)) w).
Proof. reflexivity. Qed.

(** *** What a callback leaves alone *)

Lemma same_engine_refl w : same_engine w w.
Proof. by repeat split. Qed.

Lemma same_engine_trans w1 w2 w3 :
  same_engine w1 w2 → same_engine w2 w3 → same_engine w1 w3.
Proof.
  intros (?&?&?&?&?) (?&?&?&?&?). repeat split; congruence.
Qed.

Lemma on_update_same_engine cb w : same_engine w (exec (on_update cb) w).
Proof.
  unfold exec. rewrite on_update_run.
  destruct (JSON_stringify _); [case_bool_decide|];
    rewrite ?call_run; by repeat split.
Qed.

Lemma notify_same_engine cbs : ∀ w, same_engine w (exec (notify cbs) w).
Proof.
  induction cbs as [|r rest IH]; intros w; [apply same_engine_refl|].
  unfold exec. cbn [notify].
  pose proof (on_update_same_engine (snd r) w) as Hr. unfold exec in Hr.
  destruct (on_update (snd r) w) as [[[]|e] w']; cbn [snd] in *.
  - eapply same_engine_trans; [done|apply IH].
  - destruct (w_isolate w'); cbn [snd]; [|done].
    eapply same_engine_trans; [done|apply IH].
Qed.

(** *** The trace of a callback *)

Lemma calls_app id tr1 tr2 : calls id (tr1 ++ tr2) = calls id tr1 + calls id tr2.
Proof. unfold calls. by rewrite filter_app, length_app. Qed.

Lemma calls_snoc_same id tr : calls id (tr ++ [Called id]) = S (calls id tr).
Proof.
  rewrite calls_app. unfold calls at 2. rewrite filter_cons_True by done.
  simpl. lia.
Qed.

Lemma calls_snoc_other id id' tr :
  id' ≠ id → calls id (tr ++ [Called id']) = calls id tr.
Proof.
  intros Hne. rewrite calls_app. unfold calls at 2.
  rewrite filter_cons_False by congruence. simpl. lia.
Qed.

Lemma calls_snoc_warned id tr : calls id (tr ++ [Warned]) = calls id tr.
Proof.
  rewrite calls_app. unfold calls at 2.
  rewrite filter_cons_False by congruence. simpl. lia.
Qed.

Lemma called_app tr1 tr2 : called (tr1 ++ tr2) = called tr1 ++ called tr2.
Proof. unfold called. by rewrite omap_app. Qed.

(** A callback adds to the trace at most a warning and one call, of its own
    listener. *)
Lemma on_update_trace cb w :
  ∃ delta, w_trace (exec (on_update cb) w) = w_trace w ++ delta
    ∧ (called delta = [] ∨ called delta = [l_id (cb_listener cb)]).
Proof.
  unfold exec. rewrite on_update_run.
  destruct (JSON_stringify _); [case_bool_decide|]; rewrite ?call_run; cbn.
  - exists []. by rewrite app_nil_r; auto.
  - eexists [_]. auto.
  - rewrite <-app_assoc. eexists [_; _]. auto.
Qed.

Lemma on_update_calls_other cb w id :
  l_id (cb_listener cb) ≠ id →
  calls id (w_trace (exec (on_update cb) w)) = calls id (w_trace w).
Proof.
  intros Hne. unfold exec. rewrite on_update_run.
  destruct (JSON_stringify _); [case_bool_decide|]; rewrite ?call_run;
    cbn [snd log set_prevState w_trace]; [done| |];
    by rewrite calls_snoc_other, ?calls_snoc_warned.
Qed.

Lemma on_update_prev_other cb w p :
  c_closure (cb_this cb) ≠ p →
  prevState (exec (on_update cb) w) !! p = prevState w !! p.
Proof.
  intros Hne. unfold exec. rewrite on_update_run.
  destruct (JSON_stringify _); [case_bool_decide|]; rewrite ?call_run; cbn;
    by rewrite ?lookup_insert_ne.
Qed.

(** *** The notification of a registry *)

(** After a callback, the notification either goes on with the later
    callbacks or, when the callback threw and the store does not isolate,
    stops there. *)
Lemma notify_cons_exec (r : nat * callback T) rest w :
  exec (notify (r :: rest)) w = exec (notify rest) (exec (on_update (snd r)) w)
  ∨ (exec (notify (r :: rest)) w = exec (on_update (snd r)) w
     ∧ w_isolate w = false
     ∧ ∃ e, outcome (on_update (snd r)) w = Throw e
            ∧ outcome (notify (r :: rest)) w = Throw e).
Proof.
  pose proof (on_update_same_engine (snd r) w) as (_&_&_&Hiso&_).
  unfold exec, outcome in *. cbn [notify].
  destruct (on_update (snd r) w) as [[[]|e] w']; cbn [fst snd] in *; [by left|].
  destruct (w_isolate w') eqn:Hw'; cbn [snd]; [by left|].
  right. rewrite <-Hiso. eauto.
Qed.

Lemma notify_calls_absent (cbs : list (nat * callback T)) id : ∀ w,
  id ∉ listeners_of cbs →
  calls id (w_trace (exec (notify cbs) w)) = calls id (w_trace w).
Proof.
  induction cbs as [|r rest IH]; intros w Hid; [done|].
  apply not_elem_of_cons in Hid as [Hr Hrest].
  destruct (notify_cons_exec r rest w) as [->|[-> _]];
    rewrite ?IH by done; by apply on_update_calls_other.
Qed.

Lemma notify_called (cbs : list (nat * callback T)) : ∀ w,
  ∃ ls, called (w_trace (exec (notify cbs) w)) = called (w_trace w) ++ ls
        ∧ sublist ls (listeners_of cbs).
Proof.
  induction cbs as [|r rest IH]; intros w.
  { exists []. by rewrite app_nil_r. }
  destruct (on_update_trace (snd r) w) as (delta & Hd & Hcalled).
  assert (Hhead : ∀ tail, sublist tail (listeners_of rest) →
            sublist (called delta ++ tail) (listeners_of (r :: rest))).
  { intros tail Htail. destruct Hcalled as [->| ->]; cbn.
    - by apply sublist_cons.
    - by apply sublist_skip. }
  destruct (notify_cons_exec r rest w) as [->|[-> _]].
  - destruct (IH (exec (on_update (snd r)) w)) as (ls & Hls & Hsub).
    exists (called delta ++ ls). split; [|by apply Hhead].
    by rewrite Hls, Hd, called_app, app_assoc.
  - exists (called delta). split; [by rewrite Hd, called_app|].
    rewrite <-(app_nil_r (called delta)). apply Hhead, sublist_nil_l.
Qed.

(** With listeners that return, a notification returns, whatever the
    serializations do. *)
Lemma notify_returns (cbs : list (nat * callback T)) : ∀ w,
  (∀ r, r ∈ cbs → l_throws (cb_listener (snd r)) (w_state w) = false) →
  outcome (notify cbs) w = Ok tt.
Proof.
  induction cbs as [|r rest IH]; intros w Hcbs; [done|].
  pose proof (on_update_same_engine (snd r) w) as (Hst&_).
  assert (Hr : outcome (on_update (snd r)) w = Ok tt).
  { unfold outcome. rewrite on_update_run.
    destruct (JSON_stringify _); [case_bool_decide|]; rewrite ?call_run;
      cbn; rewrite ?Hcbs; by try left. }
  unfold outcome, exec in *. cbn [notify].
  destruct (on_update (snd r) w) as [[[]|e] w']; cbn [fst snd] in *; [|done].
  apply IH. intros r' Hr'. rewrite Hst. apply Hcbs. by right.
Qed.

(** *** The baseline of a closure *)

Lemma on_update_prev_own cb w s :
  JSON_stringify (c_state (cb_this cb) (w_state w)) = Some s →
  prevState (exec (on_update cb) w) !! c_closure (cb_this cb) = Some s.
Proof.
  intros Hs. unfold exec. rewrite on_update_run, Hs.
  case_bool_decide; rewrite ?call_run; cbn; [done|].
  by rewrite lookup_insert_eq.
Qed.

Lemma exclusive_cons this id r cbs :
  exclusive this id (r :: cbs) → exclusive this id cbs.
Proof. intros H r' Hr'. apply H. by right. Qed.

(** While the baseline is the text of the current state, no callback of the
    closure calls its listener. *)
Lemma notify_suppressed this id s (cbs : list (nat * callback T)) : ∀ w,
  exclusive this id cbs →
  JSON_stringify (c_state this (w_state w)) = Some s →
  prevState w !! c_closure this = Some s →
  calls id (w_trace (exec (notify cbs) w)) = calls id (w_trace w).
Proof.
  induction cbs as [|r rest IH]; intros w Hex Hs Hprev; [done|].
  pose proof (exclusive_cons _ _ _ _ Hex) as Hex'.
  set (w' := exec (on_update (snd r)) w).
  assert (calls id (w_trace w') = calls id (w_trace w)
                ∧ w_state w' = w_state w
                ∧ prevState w' !! c_closure this = Some s) as (Hcalls & Hst & Hprev').
  { destruct (decide (c_closure (cb_this (snd r)) = c_closure this)) as [Hcell|Hcell].
    - assert (cb_this (snd r) = this) as Hthis by (apply Hex; [by left|auto]).
      subst w'. unfold exec.
      by rewrite (on_update_unchanged _ _ s); rewrite ?Hthis.
    - assert (l_id (cb_listener (snd r)) ≠ id) as Hid.
      { intros Hid. apply Hcell. by rewrite (Hex r); [|by left|auto]. }
      subst w'. split; [by apply on_update_calls_other|].
      split; [apply on_update_same_engine|].
      by rewrite on_update_prev_other. }
  destruct (notify_cons_exec r rest w) as [->|[-> _]]; [|done].
  fold w'. rewrite IH; [done|done| |done]. by rewrite Hst.
Qed.

(** When every callback of a notification has run, the baseline of a closure
    with a callback in it is the text of the current state. *)
Lemma notify_baseline this s (cbs : list (nat * callback T)) : ∀ w,
  (∀ r, r ∈ cbs → c_closure (cb_this (snd r)) = c_closure this →
        cb_this (snd r) = this) →
  JSON_stringify (c_state this (w_state w)) = Some s →
  w_isolate w = true ∨ outcome (notify cbs) w = Ok tt →
  prevState w !! c_closure this = Some s
  ∨ (∃ r, r ∈ cbs ∧ c_closure (cb_this (snd r)) = c_closure this) →
  prevState (exec (notify cbs) w) !! c_closure this = Some s.
Proof.
  induction cbs as [|r rest IH]; intros w Hown Hs Hall Hsome.
  { destruct Hsome as [?|(r & Hr & _)]; [done|]. by apply elem_of_nil in Hr. }
  set (w' := exec (on_update (snd r)) w).
  pose proof (on_update_same_engine (snd r) w) as (Hst&_&_&Hiso&_).
  fold w' in Hst, Hiso.
  assert (Hsome' : prevState w' !! c_closure this = Some s
                   ∨ ∃ r', r' ∈ rest ∧ c_closure (cb_this (snd r')) = c_closure this).
  { destruct (decide (c_closure (cb_this (snd r)) = c_closure this)) as [Hcell|Hcell].
    - left. assert (cb_this (snd r) = this) as Hthis by (apply Hown; [by left|auto]).
      subst w'. rewrite <-Hcell. apply on_update_prev_own. by rewrite Hthis.
    - subst w'. rewrite on_update_prev_other by done.
      destruct Hsome as [?|(r' & [->|Hr']%elem_of_cons & Hc)]; [eauto|done|eauto]. }
  assert (exec (notify (r :: rest)) w = exec (notify rest) w'
                  ∧ (w_isolate w' = true ∨ outcome (notify rest) w' = Ok tt))
    as [-> Hall'].
  { subst w'. unfold exec, outcome in *. cbn [notify] in *.
    destruct (on_update (snd r) w) as [[[]|e] w1]; cbn [fst snd] in *.
    - split; [done|]. destruct Hall; [left; congruence|by right].
    - destruct (w_isolate w1) eqn:Hw1; cbn [fst snd] in *; [by auto|].
      destruct Hall; congruence. }
  apply IH; [|by rewrite Hst|done|done].
  intros r' Hr'. apply Hown. by right.
Qed.

Lemma subscribe_baseline this l w handle :
  outcome (subscribe this l) w = Ok handle →
  handle = w_next w
  ∧ ∃ s, JSON_stringify (c_state this (w_state w)) = Some s
    ∧ exec (subscribe this l) w
      = set_next (S (w_next w))
          (set_subs (w_subs w ++ [(w_next w, Callback this l)])
             (set_prevState (<[c_closure this := s]> (prevState w))
                (log (Called (l_id l)) w))).
Proof.
  unfold outcome, exec. rewrite subscribe_run.
  destruct (l_throws l _); [done|].
  destruct (JSON_stringify _) as [s|]; [|done].
  cbn. intros [= <-]. eauto.
Qed.

(** *** Unsubscribing *)

Lemma set_subs_same w : set_subs (w_subs w) w = w.
Proof. by destruct w. Qed.

Lemma filter_absent (subs : list (nat * callback T)) handle :
  handle ∉ (fst <$> subs) → filter (λ r, fst r ≠ handle) subs = subs.
Proof.
  induction subs as [|r subs IH]; [done|]. rewrite fmap_cons. intros Hn.
  apply not_elem_of_cons in Hn as [Hr Hsubs].
  rewrite filter_cons_True by done. by rewrite IH.
Qed.

Lemma filter_removed (subs : list (nat * callback T)) handle :
  handle ∉ fst <$> filter (λ r, fst r ≠ handle) subs.
Proof.
  intros (r & -> & Hr)%list_elem_of_fmap.
  by apply list_elem_of_filter in Hr as [Hne _].
Qed.

Lemma unsubscribe_absent handle w :
  handle ∉ (fst <$> w_subs w) → unsubscribe handle w = (Ok tt, w).
Proof.
  intros Hn. rewrite unsubscribe_run, filter_absent by done.
  by rewrite set_subs_same.
Qed.

Lemma handles_fresh_absent w : handles_fresh w → w_next w ∉ (fst <$> w_subs w).
Proof.
  intros Hf (r & Hr & Hin)%list_elem_of_fmap. apply Hf in Hin. lia.
Qed.

Lemma filter_snoc_fresh (subs : list (nat * callback T)) handle cb :
  handle ∉ (fst <$> subs) →
  filter (λ r, fst r ≠ handle) (subs ++ [(handle, cb)]) = subs.
Proof.
  intros Hn. rewrite filter_app, filter_absent by done.
  rewrite filter_cons_False by (cbn; auto). by rewrite filter_nil, app_nil_r.
Qed.

(** *** Listeners that are not registered *)

Lemma listeners_of_filter (subs : list (nat * callback T)) id (P : nat * callback T → Prop)
    `{∀ r, Decision (P r)} :
  id ∉ listeners_of subs → id ∉ listeners_of (filter P subs).
Proof.
  intros Hn (r & -> & Hr)%list_elem_of_fmap. apply Hn.
  apply list_elem_of_filter in Hr as [_ Hr].
  apply list_elem_of_fmap. eauto.
Qed.

Lemma perform_calls_absent (a : action T) w id :
  id ∉ listeners_of (w_subs w) →
  (∀ this l, a = DoSubscribe this l → l_id l ≠ id) →
  (id ∉ listeners_of (w_subs (perform a w)))
  ∧ calls id (w_trace (perform a w)) = calls id (w_trace w).
Proof.
  intros Hid Ha. destruct a as [this l|handle|f]; cbn [perform].
  - specialize (Ha this l eq_refl). unfold exec. rewrite subscribe_run.
    destruct (l_throws l _); [|destruct (JSON_stringify _)]; cbn;
      rewrite calls_snoc_other by done; split; try done.
    unfold listeners_of. rewrite fmap_app. cbn.
    intros [?|?%list_elem_of_singleton]%elem_of_app; [done|congruence].
  - split; [|done]. by apply listeners_of_filter.
  - unfold exec. rewrite dispatch_run.
    destruct (notify_same_engine (w_subs w) (set_state (f (w_state w)) w))
      as (_ & Hsubs & _).
    unfold exec in Hsubs. rewrite Hsubs. split; [done|].
    by apply (notify_calls_absent (w_subs w) id (set_state (f (w_state w)) w)).
Qed.

Lemma perform_all_calls_absent (acts : list (action T)) id : ∀ w,
  id ∉ listeners_of (w_subs w) →
  (∀ this l, DoSubscribe this l ∈ acts → l_id l ≠ id) →
  calls id (w_trace (perform_all acts w)) = calls id (w_trace w).
Proof.
  induction acts as [|a acts IH]; intros w Hid Hacts; [done|].
  cbn [perform_all fold_left].
  destruct (perform_calls_absent a w id Hid) as [Hid' Hcalls].
  { intros this l ->. apply (Hacts this l). by left. }
  fold (perform_all acts (perform a w)). rewrite IH, Hcalls; [done|done|].
  intros this l Hin. apply (Hacts this l). by right.
Qed.

(** While a listener has a single registration and is not subscribed anew,
    it keeps that single registration. *)
Lemma perform_sole_registration (a : action T) w id handle :
  (∀ r, r ∈ w_subs w → l_id (cb_listener (snd r)) = id → fst r = handle) →
  (∀ this l, a = DoSubscribe this l → l_id l ≠ id) →
  ∀ r, r ∈ w_subs (perform a w) →
       l_id (cb_listener (snd r)) = id → fst r = handle.
Proof.
  intros Hsole Ha. destruct a as [this l|h|f]; cbn [perform].
  - specialize (Ha this l eq_refl). unfold exec. rewrite subscribe_run.
    destruct (l_throws l _); [done|]. destruct (JSON_stringify _); [|done].
    cbn. intros r [Hr|Hr%list_elem_of_singleton]%elem_of_app; [by apply Hsole|].
    subst r. cbn. by intros ?.
  - cbn. intros r [_ Hr]%list_elem_of_filter. by apply Hsole.
  - unfold exec. rewrite dispatch_run.
    destruct (notify_same_engine (w_subs w) (set_state (f (w_state w)) w))
      as (_ & Hsubs & _).
    unfold exec in Hsubs. by rewrite Hsubs.
Qed.

Lemma perform_all_sole_registration (acts : list (action T)) id handle : ∀ w,
  (∀ r, r ∈ w_subs w → l_id (cb_listener (snd r)) = id → fst r = handle) →
  (∀ this l, DoSubscribe this l ∈ acts → l_id l ≠ id) →
  ∀ r, r ∈ w_subs (perform_all acts w) →
       l_id (cb_listener (snd r)) = id → fst r = handle.
Proof.
  induction acts as [|a acts IH]; intros w Hsole Hacts; [done|].
  cbn [perform_all fold_left]. fold (perform_all acts (perform a w)).
  apply IH.
  - apply perform_sole_registration; [done|].
    intros this l ->. apply (Hacts this l). by left.
  - intros this l Hin. apply (Hacts this l). by right.
Qed.

(** After the unsubscribe of its single registration, a listener that is not
    subscribed anew is not called again. *)
Lemma unsubscribed_is_silent w handle id (acts : list (action T)) :
  (∀ r, r ∈ w_subs w → l_id (cb_listener (snd r)) = id → fst r = handle) →
  (∀ this l, DoSubscribe this l ∈ acts → l_id l ≠ id) →
  calls id (w_trace (perform_all acts (exec (unsubscribe handle) w)))
  = calls id (w_trace (exec (unsubscribe handle) w)).
Proof.
  intros Hsole Hacts. apply perform_all_calls_absent; [|done].
  unfold exec. rewrite unsubscribe_run. cbn.
  intros (r & -> & Hr)%list_elem_of_fmap.
  apply list_elem_of_filter in Hr as [Hne Hr]. by apply Hne, Hsole.
Qed.

(** [subscribe] and a notification that ran every callback both leave the
    baseline of a closure equal to the text of the current derived state. *)
Lemma subscribe_in_sync this l w handle :
  outcome (subscribe this l) w = Ok handle →
  prevState (exec (subscribe this l) w) !! c_closure this
  = JSON_stringify (c_state this (w_state (exec (subscribe this l) w))).
Proof.
  intros (_ & s & Hs & ->)%subscribe_baseline. cbn.
  by rewrite lookup_insert_eq.
Qed.

Lemma dispatch_in_sync this f w :
  (∀ r, r ∈ w_subs w → c_closure (cb_this (snd r)) = c_closure this →
        cb_this (snd r) = this) →
  (∃ r, r ∈ w_subs w ∧ c_closure (cb_this (snd r)) = c_closure this) →
  w_isolate w = true ∨ outcome (dispatch f) w = Ok tt →
  is_Some (JSON_stringify (c_state this (f (w_state w)))) →
  prevState (exec (dispatch f) w) !! c_closure this
  = JSON_stringify (c_state this (w_state (exec (dispatch f) w))).
Proof.
  intros Hown Hreg Hall [s Hs].
  destruct (notify_same_engine (w_subs w) (set_state (f (w_state w)) w))
    as (Hst & _).
  unfold exec, outcome in *. rewrite dispatch_run in *. rewrite Hst. cbn.
  rewrite Hs. apply (notify_baseline this s); auto.
Qed.

(** *** Which registrations of a closure are served *)

Lemma on_update_outcome cb w :
  outcome (on_update cb) w = Ok tt
  ∨ (l_throws (cb_listener cb) (w_state w) = true
     ∧ outcome (on_update cb) w = Throw (ListenerError (l_id (cb_listener cb)))).
Proof.
  unfold outcome. rewrite on_update_run.
  destruct (JSON_stringify _); [case_bool_decide|]; rewrite ?call_run; cbn;
    [by left| |]; destruct (l_throws _ _); auto.
Qed.

(** When the store isolates, or the listeners of the earlier callbacks
    return, a notification gets past them. *)
Lemma notify_app (pre rest : list (nat * callback T)) : ∀ w,
  w_isolate w = true
  ∨ (∀ r, r ∈ pre → l_throws (cb_listener (snd r)) (w_state w) = false) →
  exec (notify (pre ++ rest)) w = exec (notify rest) (exec (notify pre) w).
Proof.
  induction pre as [|r pre IH]; intros w Hall; [done|].
  pose proof (on_update_same_engine (snd r) w) as (Hst & _ & _ & Hiso & _).
  assert (Hall' : w_isolate (exec (on_update (snd r)) w) = true
                  ∨ (∀ r', r' ∈ pre →
                       l_throws (cb_listener (snd r'))
                                (w_state (exec (on_update (snd r)) w)) = false)).
  { destruct Hall as [?|Hpre]; [left; congruence|right].
    intros r' Hr'. rewrite Hst. apply Hpre. by right. }
  specialize (IH _ Hall').
  destruct (on_update_outcome (snd r) w) as [Hok|[Hthrows Hko]];
    unfold exec, outcome in *; cbn [app notify];
    destruct (on_update (snd r) w) as [res w1]; cbn [fst snd] in *; subst res.
  - done.
  - destruct Hall as [Hw|Hpre].
    + rewrite Hiso, Hw. done.
    + rewrite Hpre in Hthrows; [done|by left].
Qed.

Lemma notify_prev_other (cbs : list (nat * callback T)) p : ∀ w,
  (∀ r, r ∈ cbs → c_closure (cb_this (snd r)) ≠ p) →
  prevState (exec (notify cbs) w) !! p = prevState w !! p.
Proof.
  induction cbs as [|r rest IH]; intros w Hcbs; [done|].
  assert (Hr : c_closure (cb_this (snd r)) ≠ p) by (apply Hcbs; by left).
  assert (Hrest : ∀ r', r' ∈ rest → c_closure (cb_this (snd r')) ≠ p).
  { intros r' Hr'. apply Hcbs. by right. }
  destruct (notify_cons_exec r rest w) as [->|[-> _]];
    rewrite ?IH by done; by apply on_update_prev_other.
Qed.

(** The registration a closure made first is served: when the notification
    reaches its callback and the new text is not the baseline, its listener
    is called exactly once. *)
Lemma first_registration_is_notified this l f w pre post handle :
  w_subs w = pre ++ (handle, Callback this l) :: post →
  (∀ r, r ∈ pre → c_closure (cb_this (snd r)) ≠ c_closure this) →
  (∀ r, r ∈ pre ++ post → l_id (cb_listener (snd r)) ≠ l_id l) →
  w_isolate w = true
  ∨ (∀ r, r ∈ pre → l_throws (cb_listener (snd r)) (f (w_state w)) = false) →
  (∀ s, JSON_stringify (c_state this (f (w_state w))) = Some s →
        prevState w !! c_closure this ≠ Some s) →
  calls (l_id l) (w_trace (exec (dispatch f) w))
  = S (calls (l_id l) (w_trace w)).
Proof.
  intros Hsubs Hcells Hids Hall Hnew.
  unfold exec. rewrite dispatch_run, Hsubs.
  set (w0 := set_state (f (w_state w)) w).
  fold (exec (notify (pre ++ (handle, Callback this l) :: post)) w0).
  rewrite notify_app by done.
  set (w1 := exec (notify pre) w0).
  assert (calls (l_id l) (w_trace w1) = calls (l_id l) (w_trace w)
                ∧ prevState w1 !! c_closure this = prevState w !! c_closure this
                ∧ w_state w1 = f (w_state w)) as (Hcalls & Hprev & Hst).
  { subst w1. split; [|split].
    - rewrite notify_calls_absent; [done|].
      intros (r & Hr & Hin)%list_elem_of_fmap.
      apply (Hids r); [apply elem_of_app; by left|done].
    - by rewrite notify_prev_other.
    - apply (notify_same_engine pre w0). }
  set (w2 := exec (on_update (Callback this l)) w1).
  assert (Hw2 : calls (l_id l) (w_trace w2) = S (calls (l_id l) (w_trace w1))).
  { subst w2. unfold exec. rewrite on_update_run. cbn [cb_this cb_listener].
    rewrite Hst. destruct (JSON_stringify _) as [s|] eqn:Hs.
    - rewrite bool_decide_eq_false_2 by (rewrite Hprev; by apply Hnew).
      rewrite call_run. apply calls_snoc_same.
    - rewrite call_run. cbn. rewrite calls_snoc_same.
      by rewrite calls_snoc_warned. }
  destruct (notify_cons_exec (handle, Callback this l) post w1) as [->|[-> _]];
    cbn [snd]; fold w2; [|by rewrite Hw2, Hcalls].
  rewrite notify_calls_absent; [by rewrite Hw2, Hcalls|].
  intros (r & Hr & Hin)%list_elem_of_fmap.
  apply (Hids r); [apply elem_of_app; by right|done].
Qed.

(** The registrations a closure made later are not: once the first callback
    has stored the new text, the callbacks after it find nothing changed.
    No listener subscribed after another to the same controller is called on
    an update whose state serializes. *)
Lemma later_registrations_are_starved this l1 id f w pre post handle :
  w_subs w = pre ++ (handle, Callback this l1) :: post →
  (∀ r, r ∈ pre → c_closure (cb_this (snd r)) ≠ c_closure this) →
  exclusive this id (w_subs w) →
  id ≠ l_id l1 →
  is_Some (JSON_stringify (c_state this (f (w_state w)))) →
  calls id (w_trace (exec (dispatch f) w)) = calls id (w_trace w).
Proof.
  intros Hsubs Hcells Hex Hid [s Hs].
  unfold exec. rewrite dispatch_run, Hsubs. rewrite Hsubs in Hex. clear Hsubs.
  set (w0 := set_state (f (w_state w)) w).
  change (w_trace w) with (w_trace w0).
  assert (Hs0 : JSON_stringify (c_state this (w_state w0)) = Some s) by done.
  clearbody w0. clear Hs w. revert w0 Hs0.
  induction pre as [|r pre IH]; intros w Hs0.
  - cbn [app].
    set (w1 := exec (on_update (Callback this l1)) w).
    assert (calls id (w_trace w1) = calls id (w_trace w)) as Hcalls.
    { by apply on_update_calls_other. }
    destruct (notify_cons_exec (handle, Callback this l1) post w)
      as [Hgo|[Hstop _]]; cbn [snd] in *.
    + fold (exec (notify ((handle, Callback this l1) :: post)) w).
      rewrite Hgo. fold w1. rewrite <-Hcalls.
      apply (notify_suppressed this id s).
      * by apply exclusive_cons in Hex.
      * subst w1. by rewrite (proj1 (on_update_same_engine _ w)).
      * subst w1. by apply (on_update_prev_own (Callback this l1)).
    + fold (exec (notify ((handle, Callback this l1) :: post)) w).
      rewrite Hstop. by fold w1.
  - cbn [app].
    assert (Hr : c_closure (cb_this (snd r)) ≠ c_closure this) by (apply Hcells; by left).
    assert (Hrid : l_id (cb_listener (snd r)) ≠ id).
    { intros Heq. apply Hr. by rewrite (Hex r); [|by left|by right]. }
    set (w1 := exec (on_update (snd r)) w).
    assert (calls id (w_trace w1) = calls id (w_trace w)) as Hcalls.
    { by apply on_update_calls_other. }
    fold (exec (notify (r :: pre ++ (handle, Callback this l1) :: post)) w).
    destruct (notify_cons_exec r (pre ++ (handle, Callback this l1) :: post) w)
      as [->|[-> _]]; fold w1; [|done].
    rewrite <-Hcalls. apply IH.
    + intros r' Hr'. apply Hcells. by right.
    + by apply exclusive_cons in Hex.
    + subst w1. by rewrite (proj1 (on_update_same_engine _ w)).
Qed.

(** In the terms of the derived state: when the baseline is the text of the
    previous state and the update produces a state that is not
    deep-structurally equal to it (a different tree, or none), the listener
    of the first registration is called exactly once. *)
Lemma changed_state_is_notified this l f w pre post handle :
  w_subs w = pre ++ (handle, Callback this l) :: post →
  (∀ r, r ∈ pre → c_closure (cb_this (snd r)) ≠ c_closure this) →
  (∀ r, r ∈ pre ++ post → l_id (cb_listener (snd r)) ≠ l_id l) →
  w_isolate w = true
  ∨ (∀ r, r ∈ pre → l_throws (cb_listener (snd r)) (f (w_state w)) = false) →
  prevState w !! c_closure this = JSON_stringify (c_state this (w_state w)) →
  ¬ deep_equal (c_state this (w_state w)) (c_state this (f (w_state w))) →
  calls (l_id l) (w_trace (exec (dispatch f) w))
  = S (calls (l_id l) (w_trace w)).
Proof.
  intros Hsubs Hcells Hids Hall Hbase Hne.
  apply (first_registration_is_notified this l f w pre post handle); try done.
  intros s Hs Hprev. apply Hne, (stringify_deep_equal _ _ s); [|done].
  by rewrite <-Hbase.
Qed.

(** *** buildController *)

(** Every call creates a closure of its own, with [prevState] undefined when
    nothing was stored under that number, and returns the base controller,
    whose [state] is the empty object. *)
Lemma buildController_run w :
  buildController w
  = (Ok (Ctrl (w_cells w) (λ _, empty_object)), set_cells (S (w_cells w)) w).
Proof. reflexivity. Qed.

Lemma base_state_text : JSON_stringify empty_object = Some (print (TObj [])).
Proof. reflexivity. Qed.

(** Two calls make two closures: controllers do not share a [prevState]
    with one another, only the subscriptions of one controller do. *)
Lemma buildController_twice w c1 c2 :
  outcome (c1 ← buildController; c2 ← buildController; ret (c1, c2)) w
  = Ok (c1, c2) →
  c_closure c1 = w_cells w ∧ c_closure c2 = S (w_cells w)
  ∧ c_closure c1 ≠ c_closure c2.
Proof. intros [= <- <-]. cbn. lia. Qed.

Lemma with_state_closure this (getter : T → jsstate) :
  c_closure (with_state this getter) = c_closure this
  ∧ c_state (with_state this getter) = getter.
Proof. done. Qed.

End Properties.

Import Scenario.
Import Scenario2.

(** The base controller of the examples is what [buildController] returns
    on a store without controllers. *)
Lemma base_is_built (xs : list string) (isolate : bool) :
  outcome buildController (MkWorld (Store xs 0) [] 0 isolate ∅ 0 []) = Ok base.
Proof. reflexivity. Qed.

(** ** The claims of the specification *)

(** C1, evaluated where the code departs from it. Two listeners are
    subscribed to one controller whose derived state is the number of items.
    The update appends an item, so the derived state changes from
    [{count: 2}] to [{count: 3}]. The first listener is called once for the
    update; the second, whose subscription is as active as the first, is not
    called. *)
Theorem second_subscription_misses_the_update :
  unfold (c_state counter (w_state both_subscribed))
  = Some (TObj [("count", TNum 2)])
  ∧ unfold (c_state counter (append_c (w_state both_subscribed)))
    = Some (TObj [("count", TNum 3)])
  ∧ w_subs both_subscribed
    = [(0, Callback counter fn1); (1, Callback counter fn2)]
  ∧ calls 1 (w_trace (exec (dispatch append_c) both_subscribed))
    = S (calls 1 (w_trace both_subscribed))
  ∧ calls 2 (w_trace (exec (dispatch append_c) both_subscribed))
    = calls 2 (w_trace both_subscribed).
Proof. repeat split; vm_compute; reflexivity. Qed.

(** A second update for which C1 promises a call, with one subscription
    only. A failed serialization leaves the old baseline in place, so the
    update that brings the derived state back to it goes unnoticed: here the
    derived state turns from circular to [{count: 1}], the text stored at
    subscription. *)
Lemma recovery_from_unserializable_state_is_missed :
  JSON_stringify (c_state fragile (w_state fragile_cleared)) = None
  ∧ unfold (c_state fragile (restore_a (w_state fragile_cleared)))
    = Some (TObj [("count", TNum 1)])
  ∧ w_subs fragile_cleared = [(0, Callback fragile fn1)]
  ∧ calls 1 (w_trace (exec (dispatch restore_a) fragile_cleared))
    = calls 1 (w_trace fragile_cleared).
Proof. repeat split; vm_compute; reflexivity. Qed.



(** Outside deep-structural equality: a derived state that cannot be
    serialized denotes no tree and is equal to nothing, itself included; by
    the fail-open rule it is reported as changed on every update, also when
    the update leaves it exactly as it was. *)
Lemma unchanged_unserializable_state_still_notifies :
  c_state fragile (clear (w_state fragile_cleared))
  = c_state fragile (w_state fragile_cleared)
  ∧ JSON_stringify (c_state fragile (w_state fragile_cleared)) = None
  ∧ ¬ deep_equal (c_state fragile (w_state fragile_cleared))
        (c_state fragile (clear (w_state fragile_cleared)))
  ∧ w_subs fragile_cleared = [(0, Callback fragile fn1)]
  ∧ calls 1 (w_trace (exec (dispatch clear) fragile_cleared))
    = S (calls 1 (w_trace fragile_cleared)).
Proof.
  split; [reflexivity|]. split; [reflexivity|]. split.
  { intros (t & H1 & _). vm_compute in H1. discriminate. }
  split; vm_compute; reflexivity.
Qed.

(** C3, evaluated where the code departs from it. The derived state is
    circular when [subscribe] is called: the listener is called, then the
    unguarded [JSON.stringify] throws, the TypeError leaves [subscribe], no
    callback is registered, and the store updates that follow call nobody. *)
Theorem subscribe_throws_on_unserializable_state :
  JSON_stringify (c_state fragile (w_state (engine0 [] false))) = None
  ∧ outcome (subscribe fragile fn1) (engine0 [] false) = Throw TypeError
  ∧ w_subs (exec (subscribe fragile fn1) (engine0 [] false)) = []
  ∧ w_trace (exec (subscribe fragile fn1) (engine0 [] false)) = [Called 1]
  ∧ w_trace (exec (dispatch clear)
               (exec (subscribe fragile fn1) (engine0 [] false)))
    = [Called 1]
  ∧ w_trace (exec (dispatch append_c)
               (exec (subscribe fragile fn1) (engine0 [] false)))
    = [Called 1].
Proof. repeat split; vm_compute; reflexivity. Qed.

(** C4. When the serialization of the derived state fails during change
    detection, [hasStateChanged] answers "changed" after logging a warning,
    the callback calls its listener once, the stored snapshot stays as it
    was, and the TypeError goes no further: the callback ends as the
    listener's own call ends, normally when the listener returns, and a
    notification whose listeners return returns normally whatever the
    serializations do. *)
Theorem serialization_failure_fails_open {T} (cb : callback T) (w : World T) :
  JSON_stringify (c_state (cb_this cb) (w_state w)) = None →
  hasStateChanged (c_closure (cb_this cb)) (c_state (cb_this cb) (w_state w)) w
  = (Ok true, log Warned w)
  ∧ w_trace (exec (on_update cb) w)
    = w_trace w ++ [Warned; Called (l_id (cb_listener cb))]
  ∧ outcome (on_update cb) w
    = (if l_throws (cb_listener cb) (w_state w)
       then Throw (ListenerError (l_id (cb_listener cb))) else Ok tt)
  ∧ outcome (on_update cb) w ≠ Throw TypeError
  ∧ prevState (exec (on_update cb) w) = prevState w
  ∧ (∀ cbs : list (nat * callback T),
       (∀ r, r ∈ cbs → l_throws (cb_listener (snd r)) (w_state w) = false) →
       outcome (notify cbs) w = Ok tt).
Proof.
  intros Hs. split; [by apply hasStateChanged_failed|].
  unfold exec, outcome. rewrite on_update_failed, call_run by done. cbn.
  split; [by rewrite <-app_assoc|]. split; [done|].
  split; [by destruct (l_throws _ _)|]. split; [done|].
  intros cbs Hcbs. by apply notify_returns.
Qed.

Lemma serialization_failure_fails_open_witness :
  JSON_stringify (c_state fragile (w_state (engine0 [] false))) = None
  ∧ hasStateChanged 0 circular (engine0 [] false)
    = (Ok true, log Warned (engine0 [] false))
  ∧ w_trace (exec (on_update (Callback fragile fn1)) (engine0 [] false))
    = [Warned; Called 1]
  ∧ outcome (on_update (Callback fragile fn1)) (engine0 [] false) = Ok tt.
Proof.
  destruct (serialization_failure_fails_open (Callback fragile fn1)
              (engine0 [] false) eq_refl) as (Hchanged & Htr & Hout & _).
  split; [reflexivity|]. split; [exact Hchanged|].
  split; [exact Htr|exact Hout].
Defined.

(** C5. For every controller [this] and listener [l], [this.subscribe(l)]
    calls [l] exactly once, and does so first: nothing else is logged, a
    listener that throws leaves the baseline and the registry untouched, and
    when it returns the text of the derived state is stored as the baseline
    right then, before the callback is registered and the handle returned;
    it is the baseline the registered callback compares with, so that a
    notification without a change does nothing. *)
Theorem subscribe_calls_listener_then_snapshots {T} (this : controller T)
    (l : listener T) (w : World T) :
  let w' := exec (subscribe this l) w in
  w_trace w' = w_trace w ++ [Called (l_id l)]
  ∧ calls (l_id l) (w_trace w') = S (calls (l_id l) (w_trace w))
  ∧ (l_throws l (w_state w) = true →
     prevState w' = prevState w ∧ w_subs w' = w_subs w)
  ∧ (∀ s, l_throws l (w_state w) = false →
          JSON_stringify (c_state this (w_state w)) = Some s →
          outcome (subscribe this l) w = Ok (w_next w)
          ∧ prevState w' = <[c_closure this := s]> (prevState w)
          ∧ w_subs w' = w_subs w ++ [(w_next w, Callback this l)]
          ∧ on_update (Callback this l) w' = (Ok tt, w')).
Proof.
  cbn zeta. unfold exec, outcome. rewrite subscribe_run.
  destruct (l_throws l _).
  - cbn. split; [done|]. split; [apply calls_snoc_same|]. by split.
  - destruct (JSON_stringify _) as [s|] eqn:Hs; cbn.
    + split; [done|]. split; [apply calls_snoc_same|]. split; [done|].
      intros s' _ [= <-]. repeat (split; [done|]).
      apply (on_update_unchanged _ _ s); [done|]. cbn.
      by rewrite lookup_insert_eq.
    + split; [done|]. split; [apply calls_snoc_same|]. by split.
Qed.

Lemma subscribe_calls_listener_then_snapshots_witness :
  l_throws fn1 (Store ["a"; "b"] 0) = false
  ∧ JSON_stringify (count_state (Store ["a"; "b"] 0)) = Some (count_text 2)
  ∧ w_trace (exec (subscribe counter fn1) (engine0 ["a"; "b"] false))
    = [Called 1]
  ∧ outcome (subscribe counter fn1) (engine0 ["a"; "b"] false) = Ok 0
  ∧ prevState (exec (subscribe counter fn1) (engine0 ["a"; "b"] false))
    = <[0 := count_text 2]> ∅.
Proof.
  destruct (subscribe_calls_listener_then_snapshots counter fn1
              (engine0 ["a"; "b"] false)) as (Htr & _ & _ & Hok).
  destruct (Hok (count_text 2) eq_refl eq_refl) as (Hout & Hprev & _).
  split; [reflexivity|]. split; [reflexivity|].
  split; [exact Htr|]. split; [exact Hout|exact Hprev].
Defined.

(** C6. A listener is subscribed, the application goes on for a while, and
    the unsubscribe function returned by that [subscribe] call is called.
    From then on, whatever the application does (store updates, other
    subscriptions and unsubscriptions), the listener is not called again
    for that registration: its number of calls stays what it was, the
    listener having no other registration and not being subscribed anew. *)
Theorem unsubscribed_listener_is_never_called {T} (this : controller T)
    (l : listener T) (w : World T) (handle : nat)
    (earlier later : list (action T)) :
  outcome (subscribe this l) w = Ok handle →
  l_id l ∉ listeners_of (w_subs w) →
  (∀ this' l', DoSubscribe this' l' ∈ earlier ++ later → l_id l' ≠ l_id l) →
  let w1 := perform_all earlier (exec (subscribe this l) w) in
  let w2 := exec (unsubscribe handle) w1 in
  calls (l_id l) (w_trace (perform_all later w2)) = calls (l_id l) (w_trace w2).
Proof.
  intros Hok Hnew Hacts. cbn zeta. apply unsubscribed_is_silent.
  - apply perform_all_sole_registration.
    + apply subscribe_baseline in Hok as (-> & s & _ & ->). cbn.
      intros r [Hr|Hr%list_elem_of_singleton]%elem_of_app Hid; [|by subst r].
      destruct Hnew. apply list_elem_of_fmap. eauto.
    + intros this' l' Hin. apply (Hacts this' l'), elem_of_app. by left.
  - intros this' l' Hin. apply (Hacts this' l'), elem_of_app. by right.
Qed.

Lemma unsubscribed_listener_is_never_called_witness :
  let earlier := [DoDispatch append_c; DoSubscribe counter fn2] in
  let later := [DoDispatch append_c; DoUnsubscribe 1; DoDispatch clear] in
  let w1 := perform_all earlier fn1_subscribed in
  outcome (subscribe counter fn1) (engine0 ["a"; "b"] false) = Ok 0
  ∧ (l_id fn1 ∉ listeners_of (w_subs (engine0 ["a"; "b"] false)))
  ∧ (∀ this' l', DoSubscribe this' l' ∈ earlier ++ later → l_id l' ≠ l_id fn1)
  ∧ calls 1 (w_trace w1) = 2
  ∧ calls 1 (w_trace (perform_all later (exec (unsubscribe 0) w1)))
    = calls 1 (w_trace (exec (unsubscribe 0) w1))
  ∧ calls 2 (w_trace (perform_all later (exec (unsubscribe 0) w1))) = 2.
Proof.
  cbn zeta.
  assert (Hnew : l_id fn1 ∉ listeners_of (w_subs (engine0 ["a"; "b"] false))).
  { intros Hin. by apply elem_of_nil in Hin. }
  assert (Hacts : ∀ this' l',
            DoSubscribe this' l'
            ∈ [DoDispatch append_c; DoSubscribe counter fn2]
              ++ [DoDispatch append_c; DoUnsubscribe 1; DoDispatch clear] →
            l_id l' ≠ l_id fn1).
  { intros this' l' Hin. cbn [app] in Hin.
    repeat (apply elem_of_cons in Hin as [Hin|Hin]; [by inversion Hin|]).
    by apply elem_of_nil in Hin. }
  split; [reflexivity|]. split; [exact Hnew|].
  split; [exact Hacts|]. split; [reflexivity|]. split; [|reflexivity].
  exact (unsubscribed_listener_is_never_called counter fn1
           (engine0 ["a"; "b"] false) 0
           [DoDispatch append_c; DoSubscribe counter fn2]
           [DoDispatch append_c; DoUnsubscribe 1; DoDispatch clear]
           eq_refl Hnew Hacts).
Defined.

(** C7. Calling the unsubscribe function returned by [subscribe] twice is
    calling it once. Whatever the application did since the [subscribe]
    call, the first call returns normally, and in the world it leaves the
    second call returns normally and changes nothing. Called right after
    [subscribe], the first call removes exactly the callback that
    [subscribe] registered: the registry is what it was before. *)
Theorem unsubscribe_twice_is_unsubscribe_once {T} (this : controller T)
    (l : listener T) (w : World T) (handle : nat)
    (earlier : list (action T)) :
  outcome (subscribe this l) w = Ok handle →
  let w1 := perform_all earlier (exec (subscribe this l) w) in
  let w2 := exec (unsubscribe handle) w1 in
  outcome (unsubscribe handle) w1 = Ok tt
  ∧ unsubscribe handle w2 = (Ok tt, w2)
  ∧ exec (unsubscribe handle;; unsubscribe handle) w1 = w2
  ∧ (handles_fresh w →
     w_subs (exec (unsubscribe handle) (exec (subscribe this l) w)) = w_subs w).
Proof.
  intros Hok. cbn zeta. set (w1 := perform_all earlier _).
  split; [done|].
  assert (Hnoop : unsubscribe handle (exec (unsubscribe handle) w1)
                  = (Ok tt, exec (unsubscribe handle) w1)).
  { apply unsubscribe_absent. unfold exec at 1. rewrite unsubscribe_run.
    apply filter_removed. }
  split; [done|]. split.
  - unfold exec at 1. unfold mbind, M_bind, bind.
    rewrite unsubscribe_run. fold (unsubscribe handle w1).
    change (set_subs _ _) with (exec (unsubscribe handle) w1).
    by rewrite Hnoop.
  - intros Hfresh. apply subscribe_baseline in Hok as (-> & s & _ & ->).
    unfold exec. rewrite unsubscribe_run. cbn.
    by apply filter_snoc_fresh, handles_fresh_absent.
Qed.

Lemma unsubscribe_twice_is_unsubscribe_once_witness :
  let w1 := perform_all [DoDispatch append_c] fn1_subscribed in
  outcome (subscribe counter fn1) (engine0 ["a"; "b"] false) = Ok 0
  ∧ w_subs w1 = [(0, Callback counter fn1)]
  ∧ w_subs (exec (unsubscribe 0) w1) = []
  ∧ unsubscribe 0 (exec (unsubscribe 0) w1) = (Ok tt, exec (unsubscribe 0) w1)
  ∧ exec (unsubscribe 0;; unsubscribe 0) w1 = exec (unsubscribe 0) w1.
Proof.
  cbn zeta.
  destruct (unsubscribe_twice_is_unsubscribe_once counter fn1
              (engine0 ["a"; "b"] false) 0 [DoDispatch append_c] eq_refl)
    as (_ & Hnoop & Htwice & _).
  split; [reflexivity|]. split; [reflexivity|]. split; [reflexivity|].
  split; [exact Hnoop|exact Htwice].
Defined.

(** C8, as the code has it. Every successful call of [subscribe] registers
    one callback of its own with the store (a failed call registers none), a
    callback calls no listener but its own and at most once, and within one
    store update the listeners that are called are called in registration
    order. *)
Theorem one_callback_per_subscribe_call {T} (this : controller T)
    (l : listener T) (f : T → T) (w : World T) :
  (∀ handle, outcome (subscribe this l) w = Ok handle →
     w_subs (exec (subscribe this l) w)
     = w_subs w ++ [(handle, Callback this l)])
  ∧ (∀ e, outcome (subscribe this l) w = Throw e →
       w_subs (exec (subscribe this l) w) = w_subs w)
  ∧ (∀ cb, ∃ delta,
       w_trace (exec (on_update cb) w) = w_trace w ++ delta
       ∧ (called delta = [] ∨ called delta = [l_id (cb_listener cb)]))
  ∧ (∃ ls, called (w_trace (exec (dispatch f) w)) = called (w_trace w) ++ ls
           ∧ sublist ls (listeners_of (w_subs w))).
Proof.
  split; [|split; [|split]].
  - intros handle Hok. by apply subscribe_baseline in Hok as (-> & s & _ & ->).
  - intros e. unfold outcome, exec. rewrite subscribe_run.
    destruct (l_throws l _); [done|]. by destruct (JSON_stringify _).
  - intros cb. apply on_update_trace.
  - unfold exec. rewrite dispatch_run.
    apply (notify_called (w_subs w) (set_state (f (w_state w)) w)).
Qed.

Lemma one_callback_per_subscribe_call_witness :
  outcome (subscribe counter fn2) fn1_subscribed = Ok 1
  ∧ w_subs (exec (subscribe counter fn2) fn1_subscribed)
    = [(0, Callback counter fn1); (1, Callback counter fn2)].
Proof.
  destruct (one_callback_per_subscribe_call counter fn2 append_c
              fn1_subscribed) as (Hsubs & _).
  split; [reflexivity|]. exact (Hsubs 1 eq_refl).
Defined.

(** C8 as stated fails: a controller on which [subscribe] was called twice
    has two callbacks in the store, not one, and the update that follows
    calls the first listener only. *)
Lemma two_subscriptions_register_two_callbacks :
  registrations_of (c_closure counter) both_subscribed
  = [(0, Callback counter fn1); (1, Callback counter fn2)]
  ∧ length (registrations_of (c_closure counter) both_subscribed) ≠ 1
  ∧ called (w_trace both_subscribed) = [1; 2]
  ∧ called (w_trace (exec (dispatch append_c) both_subscribed)) = [1; 2; 1].
Proof.
  split; [reflexivity|]. split; [by vm_compute|]. split; reflexivity.
Qed.

(** C9, as the code has it. On a notification whose serialization [s]
    differs from the stored snapshot, the callback first stores [s] and then
    calls the listener: the snapshot is already updated when the listener
    runs, and stays updated if the listener throws. When the serialization
    equals the snapshot the callback does nothing at all. *)
Theorem on_update_snapshots_then_calls {T} (cb : callback T) (w : World T)
    (s : string) :
  JSON_stringify (c_state (cb_this cb) (w_state w)) = Some s →
  (prevState w !! c_closure (cb_this cb) ≠ Some s →
   on_update cb w
   = call (cb_listener cb)
          (set_prevState (<[c_closure (cb_this cb) := s]> (prevState w)) w)
   ∧ prevState (exec (on_update cb) w)
     = <[c_closure (cb_this cb) := s]> (prevState w)
   ∧ w_trace (exec (on_update cb) w)
     = w_trace w ++ [Called (l_id (cb_listener cb))])
  ∧ (prevState w !! c_closure (cb_this cb) = Some s →
     on_update cb w = (Ok tt, w)).
Proof.
  intros Hs. split.
  - intros Hne. unfold exec. rewrite (on_update_changed _ _ s) by done.
    by rewrite call_run.
  - by apply on_update_unchanged.
Qed.

Lemma on_update_snapshots_then_calls_witness :
  JSON_stringify (c_state counter (w_state picky_notified))
  = Some (count_text 3)
  ∧ prevState picky_notified !! 0 ≠ Some (count_text 3)
  ∧ prevState (exec (on_update (Callback counter picky)) picky_notified)
    = <[0 := count_text 3]> (prevState picky_notified)
  ∧ w_trace (exec (on_update (Callback counter picky)) picky_notified)
    = w_trace picky_notified ++ [Called 3].
Proof.
  assert (Hne : prevState picky_notified !! 0 ≠ Some (count_text 3)).
  { vm_compute. discriminate. }
  destruct (on_update_snapshots_then_calls (Callback counter picky)
              picky_notified (count_text 3) eq_refl) as [Hchanged _].
  destruct (Hchanged Hne) as (_ & Hprev & Htr).
  split; [reflexivity|]. split; [exact Hne|]. split; [exact Hprev|exact Htr].
Defined.

(** C9 as stated fails: the specified order (listener first, snapshot
    afterwards) would leave the old snapshot in place when the listener
    throws; the code has already stored the new one. *)
Lemma snapshot_is_written_before_the_listener_runs :
  let cb := Callback counter picky in
  exec (dispatch append_c) picky_subscribed = exec (on_update cb) picky_notified
  ∧ prevState picky_notified !! 0 = Some (count_text 2)
  ∧ outcome (on_update cb) picky_notified = Throw (ListenerError 3)
  ∧ prevState (exec (on_update cb) picky_notified) !! 0 = Some (count_text 3)
  ∧ outcome (on_update_as_specified cb) picky_notified
    = Throw (ListenerError 3)
  ∧ prevState (exec (on_update_as_specified cb) picky_notified) !! 0
    = Some (count_text 2)
  ∧ exec (on_update cb) picky_notified
    ≠ exec (on_update_as_specified cb) picky_notified.
Proof.
  cbn zeta. repeat (split; [vm_compute; reflexivity|]).
  intros Heq.
  apply (f_equal (λ w, prevState w !! 0)) in Heq. vm_compute in Heq.
  discriminate.
Qed.

(** C10. The subscriptions of one controller share the single [prevState] of
    its closure: every call of [subscribe] stores the current text there,
    whatever was stored before. With two listeners subscribed to the same
    controller, on an update that changes the text of the derived state the
    callback registered first stores the new text and calls its listener;
    the second callback then finds the text unchanged, so the second
    listener is not called. *)
Theorem shared_prevState_starves_second_listener {T} (this : controller T)
    (l1 l2 : listener T) (f : T → T) (w : World T) (s0 s1 : string) :
  w_subs w = [] →
  l_throws l1 (w_state w) = false →
  l_throws l2 (w_state w) = false →
  l_id l1 ≠ l_id l2 →
  JSON_stringify (c_state this (w_state w)) = Some s0 →
  JSON_stringify (c_state this (f (w_state w))) = Some s1 →
  s0 ≠ s1 →
  let w2 := exec (subscribe this l1;; subscribe this l2) w in
  let w3 := exec (dispatch f) w2 in
  listeners_of (w_subs w2) = [l_id l1; l_id l2]
  ∧ (∀ w', outcome (subscribe this l2) w' = Ok (w_next w') →
       prevState (exec (subscribe this l2) w') !! c_closure this
       = JSON_stringify (c_state this (w_state w')))
  ∧ prevState w2 !! c_closure this = Some s0
  ∧ w_trace w3 = w_trace w2 ++ [Called (l_id l1)]
  ∧ calls (l_id l2) (w_trace w3) = calls (l_id l2) (w_trace w2)
  ∧ prevState w3 !! c_closure this = Some s1.
Proof.
  intros Hsubs Hl1 Hl2 Hid Hs0 Hs1 Hne. cbn zeta.
  assert (Hw2 : exec (subscribe this l1;; subscribe this l2) w
    = MkWorld (w_state w)
        [(w_next w, Callback this l1); (S (w_next w), Callback this l2)]
        (S (S (w_next w))) (w_isolate w)
        (<[c_closure this := s0]> (<[c_closure this := s0]> (prevState w)))
        (w_cells w) ((w_trace w ++ [Called (l_id l1)]) ++ [Called (l_id l2)])).
  { unfold exec, mbind, M_bind, bind. rewrite subscribe_run, Hl1, Hs0.
    cbn. rewrite subscribe_run. cbn. rewrite Hl2, Hs0. cbn. by rewrite Hsubs. }
  rewrite Hw2. clear Hw2. set (w2 := MkWorld _ _ _ _ _ _ _).
  split; [done|]. split.
  { intros w' Hok. apply subscribe_baseline in Hok as (_ & s & -> & ->).
    cbn. by rewrite lookup_insert_eq. }
  split; [by cbn; rewrite lookup_insert_eq|].
  assert (w_trace (exec (dispatch f) w2) = w_trace w2 ++ [Called (l_id l1)]
                ∧ prevState (exec (dispatch f) w2) !! c_closure this = Some s1)
    as [Htr Hprev].
  { unfold exec. rewrite dispatch_run. cbn [w2 w_subs notify snd].
    set (w' := set_state _ _).
    rewrite (on_update_changed _ w' s1), call_run; [|done|].
    2:{ cbn. rewrite lookup_insert_eq. congruence. }
    set (w'' := log _ _).
    assert (Hsecond : on_update (Callback this l2) w'' = (Ok tt, w'')).
    { apply (on_update_unchanged _ _ s1); [done|]. cbn. by rewrite lookup_insert_eq. }
    assert (Hw'' : w_trace w'' = w_trace w2 ++ [Called (l_id l1)]
                   ∧ prevState w'' !! c_closure this = Some s1).
    { cbn. by rewrite lookup_insert_eq. }
    cbn [ret]. rewrite Hsecond.
    by destruct (l_throws (cb_listener _) _); [destruct (w_isolate w'')|]. }
  split; [done|]. split; [|done].
  rewrite Htr. by apply calls_snoc_other.
Qed.

Lemma shared_prevState_starves_second_listener_witness :
  w_subs (engine0 ["a"; "b"] false) = []
  ∧ l_id fn1 ≠ l_id fn2
  ∧ JSON_stringify (c_state counter (w_state (engine0 ["a"; "b"] false)))
    = Some (count_text 2)
  ∧ JSON_stringify
      (c_state counter (append_c (w_state (engine0 ["a"; "b"] false))))
    = Some (count_text 3)
  ∧ count_text 2 ≠ count_text 3
  ∧ w_trace both_subscribed = [Called 1; Called 2]
  ∧ w_trace (exec (dispatch append_c) both_subscribed)
    = [Called 1; Called 2; Called 1]
  ∧ calls 2 (w_trace (exec (dispatch append_c) both_subscribed)) = 1
  ∧ prevState (exec (dispatch append_c) both_subscribed) !! 0
    = Some (count_text 3).
Proof.
  assert (Hne : count_text 2 ≠ count_text 3) by (vm_compute; discriminate).
  assert (Hid : l_id fn1 ≠ l_id fn2) by (vm_compute; discriminate).
  destruct (shared_prevState_starves_second_listener counter fn1 fn2 append_c
              (engine0 ["a"; "b"] false) (count_text 2) (count_text 3)
              eq_refl eq_refl eq_refl Hid eq_refl eq_refl Hne)
    as (_ & _ & _ & Htr & Hcalls & Hprev).
  split; [reflexivity|]. split; [exact Hid|]. split; [reflexivity|].
  split; [reflexivity|]. split; [exact Hne|]. split; [reflexivity|].
  split; [exact Htr|]. split; [exact Hcalls|exact Hprev].
Defined.

(** ** Further properties of the controller *)

Section ControllerFacts.

Context {T : Type}.
Implicit Types (w : World T) (this : controller T) (cb : callback T)
  (l : listener T) (f : T → T) (p : nat) (tr : list event).

Lemma exclusive_owns this id (cbs : list (nat * callback T)) :
  exclusive this id cbs → owns_closure this cbs.
Proof. intros Hex r Hr Hc. apply Hex; auto. Qed.

(** While the baseline is the text of the current state, a notification
    leaves it in place. *)
Lemma notify_baseline_kept this s (cbs : list (nat * callback T)) : ∀ w,
  owns_closure this cbs →
  JSON_stringify (c_state this (w_state w)) = Some s →
  prevState w !! c_closure this = Some s →
  prevState (exec (notify cbs) w) !! c_closure this = Some s.
Proof.
  induction cbs as [|r rest IH]; intros w Hown Hs Hprev; [done|].
  assert (Hown' : owns_closure this rest).
  { intros r' Hr'. apply Hown. by right. }
  set (w' := exec (on_update (snd r)) w).
  assert (w_state w' = w_state w
          ∧ prevState w' !! c_closure this = Some s) as (Hst & Hprev').
  { destruct (decide (c_closure (cb_this (snd r)) = c_closure this)) as [Hc|Hc].
    - assert (cb_this (snd r) = this) as Hthis by (apply Hown; [by left|done]).
      subst w'. unfold exec.
      by rewrite (on_update_unchanged _ _ s); rewrite ?Hthis.
    - subst w'. split; [apply on_update_same_engine|].
      by rewrite on_update_prev_other. }
  destruct (notify_cons_exec r rest w) as [->|[-> _]]; [|done].
  fold w'. apply IH; [done| |done]. by rewrite Hst.
Qed.

Lemma calls_called id tr :
  calls id tr = length (filter (λ x, x = id) (called tr)).
Proof.
  unfold calls, called. induction tr as [|e tr IH]; [done|].
  destruct e as [x|]; cbn [omap list_omap]; fold (@omap list _ event nat).
  - destruct (decide (x = id)) as [->|Hne].
    + rewrite !filter_cons_True by done. rewrite !length_cons. by f_equal.
    + rewrite filter_cons_False by congruence.
      by rewrite (filter_cons_False _ x) by done.
  - by rewrite filter_cons_False by congruence.
Qed.

Lemma filter_sublist_length (id : nat) (ls ls' : list nat) :
  sublist ls ls' →
  length (filter (λ x, x = id) ls) ≤ length (filter (λ x, x = id) ls').
Proof.
  induction 1 as [|x l1 l2 _ IH|x l1 l2 _ IH]; [done| |].
  - rewrite !filter_cons. case_decide; cbn; lia.
  - rewrite filter_cons. case_decide; cbn; lia.
Qed.

(** A controller whose derived state has one text, whatever the engine
    holds, is silent: once that text is the baseline, no sequence of store
    updates calls a listener subscribed to it. *)
Lemma constant_state_is_silent this id s (fs : list (T → T)) : ∀ w,
  exclusive this id (w_subs w) →
  (∀ st, JSON_stringify (c_state this st) = Some s) →
  prevState w !! c_closure this = Some s →
  calls id (w_trace (perform_all (DoDispatch <$> fs) w)) = calls id (w_trace w).
Proof.
  induction fs as [|f fs IH]; intros w Hex Hs Hprev; [done|].
  cbn [fmap list_fmap perform_all fold_left perform].
  fold (perform_all (DoDispatch <$> fs) (exec (dispatch f) w)).
  destruct (notify_same_engine (w_subs w) (set_state (f (w_state w)) w))
    as (_ & Hsubs & _).
  assert (Hcalls : calls id (w_trace (exec (dispatch f) w)) = calls id (w_trace w)).
  { unfold exec. rewrite dispatch_run.
    by apply (notify_suppressed this id s (w_subs w)
                (set_state (f (w_state w)) w)). }
  rewrite IH, Hcalls; [done| |done|].
  - unfold exec in *. rewrite dispatch_run. by rewrite Hsubs.
  - unfold exec. rewrite dispatch_run.
    apply (notify_baseline_kept this s (w_subs w)
             (set_state (f (w_state w)) w)); [|done|done].
    by apply (exclusive_owns _ id).
Qed.

End ControllerFacts.

(** X1. The base controller is silent. What [buildController] returns has
    the [state] getter that answers an empty object. Subscribing a listener
    to it, unextended, succeeds when the listener returns and calls the
    listener once; after that no sequence of store updates calls the
    listener again, whatever the updates do to the engine. *)
Theorem base_controller_never_notifies {T} (w : World T) (l : listener T)
    (fs : list (T → T)) :
  closures_allocated w →
  l_id l ∉ listeners_of (w_subs w) →
  l_throws l (w_state w) = false →
  let c := Ctrl (w_cells w) (λ _, empty_object) in
  let w1 := exec (subscribe c l) (exec buildController w) in
  outcome buildController w = Ok c
  ∧ outcome (subscribe c l) (exec buildController w) = Ok (w_next w)
  ∧ calls (l_id l) (w_trace w1) = S (calls (l_id l) (w_trace w))
  ∧ calls (l_id l) (w_trace (perform_all (DoDispatch <$> fs) w1))
    = calls (l_id l) (w_trace w1).
Proof.
  intros Halloc Hid Hl c w1. split; [done|].
  assert (Hrun : subscribe c l (exec buildController w)
    = (Ok (w_next w),
       MkWorld (w_state w) (w_subs w ++ [(w_next w, Callback c l)])
         (S (w_next w)) (w_isolate w)
         (<[w_cells w := print (TObj [])]> (prevState w)) (S (w_cells w))
         (w_trace w ++ [Called (l_id l)]))).
  { rewrite subscribe_run. cbn. rewrite Hl, base_state_text. reflexivity. }
  assert (Hout : outcome (subscribe c l) (exec buildController w)
                 = Ok (w_next w)) by (unfold outcome; by rewrite Hrun).
  assert (Hw1 : w1 = snd (subscribe c l (exec buildController w))) by done.
  rewrite Hrun in Hw1. cbn [snd] in Hw1. clearbody w1. subst w1.
  split; [done|]. split; [apply calls_snoc_same|].
  apply (constant_state_is_silent c (l_id l) (print (TObj []))).
  - intros r [Hr|Hr%list_elem_of_singleton]%elem_of_app Hor; [|by subst r].
    exfalso. destruct Hor as [Hc|Hl'].
    + apply Halloc in Hr. cbn in Hc. lia.
    + apply Hid. apply list_elem_of_fmap. eauto.
  - intros st. apply base_state_text.
  - cbn. by rewrite lookup_insert_eq.
Qed.

Lemma base_controller_never_notifies_witness :
  closures_allocated (MkWorld (Store ["a"] 0) [] 0 false ∅ 0 [])
  ∧ calls 1 (w_trace (perform_all (DoDispatch <$> [append_c; clear; restore_a])
                        (exec (subscribe base fn1) (engine0 ["a"] false))))
    = calls 1 (w_trace (exec (subscribe base fn1) (engine0 ["a"] false)))
  ∧ calls 1 (w_trace (exec (subscribe base fn1) (engine0 ["a"] false))) = 1.
Proof.
  assert (Halloc : closures_allocated (MkWorld (Store ["a"] 0) [] 0 false ∅ 0 [])).
  { intros r Hr. by apply elem_of_nil in Hr. }
  assert (Hid : l_id fn1 ∉ listeners_of
                  (w_subs (MkWorld (Store ["a"] 0) [] 0 false ∅ 0 []))).
  { apply not_elem_of_nil. }
  destruct (base_controller_never_notifies
              (MkWorld (Store ["a"] 0) [] 0 false ∅ 0 []) fn1
              [append_c; clear; restore_a] Halloc Hid eq_refl)
    as (_ & _ & Hfirst & Hrest).
  split; [exact Halloc|]. split; [exact Hrest|exact Hfirst].
Defined.

(** X2. A subscription that is the first of its controller detects change.
    After [subscribe] has returned for a listener that was not registered
    before, on a controller whose closure has no registration yet, an
    update that produces a derived state that is not deep-structurally
    equal to the one seen at subscription calls the listener exactly once,
    provided the notification reaches the callback (the store isolates its
    callbacks, or the listeners registered earlier return). *)
Theorem fresh_subscription_is_notified_of_change {T} (this : controller T)
    (l : listener T) (f : T → T) (w : World T) (handle : nat) :
  outcome (subscribe this l) w = Ok handle →
  (∀ r, r ∈ w_subs w → c_closure (cb_this (snd r)) ≠ c_closure this) →
  l_id l ∉ listeners_of (w_subs w) →
  w_isolate w = true
  ∨ (∀ r, r ∈ w_subs w → l_throws (cb_listener (snd r)) (f (w_state w)) = false) →
  ¬ deep_equal (c_state this (w_state w)) (c_state this (f (w_state w))) →
  calls (l_id l) (w_trace (exec (dispatch f) (exec (subscribe this l) w)))
  = S (calls (l_id l) (w_trace (exec (subscribe this l) w))).
Proof.
  intros (-> & s & Hs & ->)%subscribe_baseline Hcells Hid Hall Hne.
  set (w1 := set_next _ _).
  apply (changed_state_is_notified this l f w1 (w_subs w) [] (w_next w));
    try done.
  - rewrite app_nil_r. intros r Hr Heq. apply Hid.
    apply list_elem_of_fmap. eauto.
  - cbn. by rewrite lookup_insert_eq.
Qed.

Lemma fresh_subscription_is_notified_of_change_witness :
  outcome (subscribe counter fn1) (engine0 ["a"; "b"] false) = Ok 0
  ∧ ¬ deep_equal (c_state counter (w_state (engine0 ["a"; "b"] false)))
        (c_state counter (append_c (w_state (engine0 ["a"; "b"] false))))
  ∧ calls 1 (w_trace (exec (dispatch append_c) fn1_subscribed)) = 2.
Proof.
  assert (Hne : ¬ deep_equal
                  (c_state counter (w_state (engine0 ["a"; "b"] false)))
                  (c_state counter (append_c (w_state (engine0 ["a"; "b"] false))))).
  { intros (t & H1 & H2). vm_compute in H1, H2. congruence. }
  assert (Hcells : ∀ r, r ∈ w_subs (engine0 ["a"; "b"] false) →
                     c_closure (cb_this (snd r)) ≠ c_closure counter).
  { intros r Hr. by apply elem_of_nil in Hr. }
  assert (Hid : l_id fn1 ∉ listeners_of (w_subs (engine0 ["a"; "b"] false))).
  { apply not_elem_of_nil. }
  split; [reflexivity|]. split; [exact Hne|].
  exact (fresh_subscription_is_notified_of_change counter fn1 append_c
           (engine0 ["a"; "b"] false) 0 eq_refl Hcells Hid
           (or_intror (λ r Hr, False_ind _ (proj1 (elem_of_nil r) Hr))) Hne).
Defined.

(** X3. Every later subscription of a controller is starved, not only the
    second. In any registry where the closure of a controller has an
    earlier registration, a listener [id] that only this controller
    subscribed, and that is not the listener of that earliest registration,
    is not called on an update whose derived state serializes, whether or
    not the derived state changed. *)
Theorem later_subscriptions_are_never_notified {T} (this : controller T)
    (l1 : listener T) (id : nat) (f : T → T) (w : World T)
    (earlier later : list (nat * callback T)) (handle : nat) :
  w_subs w = earlier ++ (handle, Callback this l1) :: later →
  (∀ r, r ∈ earlier → c_closure (cb_this (snd r)) ≠ c_closure this) →
  exclusive this id (w_subs w) →
  id ≠ l_id l1 →
  is_Some (JSON_stringify (c_state this (f (w_state w)))) →
  calls id (w_trace (exec (dispatch f) w)) = calls id (w_trace w).
Proof. apply later_registrations_are_starved. Qed.

Lemma later_subscriptions_are_never_notified_witness :
  w_subs three_subscribed
  = [] ++ (0, Callback counter fn1)
       :: [(1, Callback counter fn2); (2, Callback counter fn3)]
  ∧ exclusive counter 4 (w_subs three_subscribed)
  ∧ is_Some (JSON_stringify
               (c_state counter (append_c (w_state three_subscribed))))
  ∧ calls 4 (w_trace (exec (dispatch append_c) three_subscribed)) = 1
  ∧ calls 1 (w_trace (exec (dispatch append_c) three_subscribed)) = 2.
Proof.
  assert (Hex : exclusive counter 4 (w_subs three_subscribed)).
  { intros r Hr _. vm_compute in Hr.
    repeat (apply elem_of_cons in Hr as [->|Hr]; [reflexivity|]).
    by apply elem_of_nil in Hr. }
  assert (Hs : is_Some (JSON_stringify
                          (c_state counter (append_c (w_state three_subscribed)))))
    by (vm_compute; eauto).
  split; [reflexivity|]. split; [exact Hex|]. split; [exact Hs|].
  split; [|reflexivity].
  exact (later_subscriptions_are_never_notified counter fn1 4 append_c
           three_subscribed [] _ 0 eq_refl
           (λ r Hr, False_ind _ (proj1 (elem_of_nil r) Hr)) Hex
           (λ H : 4 = l_id fn1, eq_ind 4 (λ n, match n with 4 => True | _ => False end) I _ H)
           Hs).
Defined.

(** X4. A failed serialization leaves the baseline stale. With a single
    registration, an update whose derived state cannot be serialized warns
    and calls the listener, and [prevState] keeps the text stored before;
    a following update whose derived state has that old text again is then
    taken for no change: nothing is logged and the listener is not
    called. *)
Theorem failed_serialization_keeps_the_old_baseline {T} (this : controller T)
    (l : listener T) (f g : T → T) (w : World T) (handle : nat) (s : string) :
  w_subs w = [(handle, Callback this l)] →
  prevState w !! c_closure this = Some s →
  JSON_stringify (c_state this (f (w_state w))) = None →
  JSON_stringify (c_state this (g (f (w_state w)))) = Some s →
  let w1 := exec (dispatch f) w in
  let w2 := exec (dispatch g) w1 in
  w_trace w1 = w_trace w ++ [Warned; Called (l_id l)]
  ∧ prevState w1 = prevState w
  ∧ w_trace w2 = w_trace w1.
Proof.
  intros Hsubs Hprev Hf Hg w1 w2.
  assert (Hw1 : w1 = log (Called (l_id l))
                       (log Warned (set_state (f (w_state w)) w))).
  { subst w1. unfold exec. rewrite dispatch_run, Hsubs. cbn [notify snd].
    rewrite on_update_failed by done. rewrite call_run. cbn [cb_listener].
    destruct (l_throws l _); [|done].
    by destruct (w_isolate _). }
  subst w2. clearbody w1. subst w1.
  split; [by cbn; rewrite <-app_assoc|]. split; [done|].
  unfold exec. rewrite dispatch_run. cbn [log set_state w_subs w_state].
  rewrite Hsubs. cbn [notify snd].
  by rewrite (on_update_unchanged _ _ s).
Qed.

Lemma failed_serialization_keeps_the_old_baseline_witness :
  w_subs (exec (subscribe fragile fn1) (engine0 ["a"] false))
  = [(0, Callback fragile fn1)]
  ∧ unfold (c_state fragile
              (restore_a (clear (w_state (exec (subscribe fragile fn1)
                                            (engine0 ["a"] false))))))
    = Some (TObj [("count", TNum 1)])
  ∧ w_trace fragile_cleared = [Called 1; Warned; Called 1]
  ∧ w_trace (exec (dispatch restore_a) fragile_cleared)
    = [Called 1; Warned; Called 1].
Proof.
  destruct (failed_serialization_keeps_the_old_baseline fragile fn1 clear
              restore_a (exec (subscribe fragile fn1) (engine0 ["a"] false))
              0 (count_text 1) eq_refl eq_refl eq_refl eq_refl)
    as (Hfirst & _ & Hsecond).
  split; [reflexivity|]. split; [reflexivity|].
  split; [exact Hfirst|exact Hsecond].
Defined.

(** X5. One change, one notification. After an update whose notification
    ran every callback and produced a serializable derived state, a second
    update that leaves the derived state deep-structurally equal calls no
    listener of the controller: nothing about the first update is reported
    twice. No assumption is made on the baseline before the first update;
    the first notification establishes it. *)
Theorem no_second_notification_for_one_change {T} (this : controller T)
    (id : nat) (f g : T → T) (w : World T) :
  exclusive this id (w_subs w) →
  (∃ r, r ∈ w_subs w ∧ c_closure (cb_this (snd r)) = c_closure this) →
  w_isolate w = true ∨ outcome (dispatch f) w = Ok tt →
  deep_equal (c_state this (f (w_state w))) (c_state this (g (f (w_state w)))) →
  calls id (w_trace (exec (dispatch g) (exec (dispatch f) w)))
  = calls id (w_trace (exec (dispatch f) w)).
Proof.
  intros Hex Hreg Hall (x & Hold & Hnew)%deep_equal_stringify.
  pose proof (dispatch_in_sync this f w (exclusive_owns _ _ _ Hex) Hreg Hall
                (ex_intro _ x Hold)) as Hsync.
  destruct (notify_same_engine (w_subs w) (set_state (f (w_state w)) w))
    as (Hst & Hsubs & _).
  set (w1 := exec (dispatch f) w) in *.
  assert (Hst1 : w_state w1 = f (w_state w)) by exact Hst.
  assert (Hsubs1 : w_subs w1 = w_subs w) by exact Hsubs.
  unfold exec at 1. rewrite dispatch_run.
  apply (notify_suppressed this id x (w_subs w1)
           (set_state (g (w_state w1)) w1)).
  - by rewrite Hsubs1.
  - cbn. by rewrite Hst1.
  - cbn. by rewrite Hsync, Hst1.
Qed.

Lemma no_second_notification_for_one_change_witness :
  exclusive counter 1 (w_subs fn1_subscribed)
  ∧ outcome (dispatch append_c) fn1_subscribed = Ok tt
  ∧ deep_equal (c_state counter (append_c (w_state fn1_subscribed)))
      (c_state counter (replace_same (append_c (w_state fn1_subscribed))))
  ∧ calls 1 (w_trace (exec (dispatch append_c) fn1_subscribed)) = 2
  ∧ calls 1 (w_trace (exec (dispatch replace_same)
                        (exec (dispatch append_c) fn1_subscribed))) = 2.
Proof.
  assert (Hex : exclusive counter 1 (w_subs fn1_subscribed)).
  { intros r Hr _. apply list_elem_of_singleton in Hr. by subst r. }
  assert (Hreg : ∃ r, r ∈ w_subs fn1_subscribed
                      ∧ c_closure (cb_this (snd r)) = c_closure counter).
  { exists (0, Callback counter fn1). split; [left|reflexivity]. }
  assert (Heq : deep_equal (c_state counter (append_c (w_state fn1_subscribed)))
                  (c_state counter
                     (replace_same (append_c (w_state fn1_subscribed))))).
  { exists (TObj [("count", TNum 3)]). split; reflexivity. }
  split; [exact Hex|]. split; [reflexivity|]. split; [exact Heq|].
  split; [reflexivity|].
  exact (no_second_notification_for_one_change counter 1 append_c replace_same
           fn1_subscribed Hex Hreg (or_intror eq_refl) Heq).
Defined.

(** X6. Controllers from separate [buildController] calls do not starve one
    another. With one listener subscribed to each of two controllers whose
    closures differ, an update that changes the text of both derived states
    calls both listeners, in registration order; the two may even be the
    same function, which is then called twice. *)
Theorem separate_controllers_are_both_notified {T} (c1 c2 : controller T)
    (l1 l2 : listener T) (f : T → T) (w : World T) (s1 s1' s2 s2' : string) :
  w_subs w = [] →
  c_closure c1 ≠ c_closure c2 →
  l_throws l1 (w_state w) = false →
  l_throws l2 (w_state w) = false →
  l_throws l1 (f (w_state w)) = false →
  JSON_stringify (c_state c1 (w_state w)) = Some s1 →
  JSON_stringify (c_state c1 (f (w_state w))) = Some s1' →
  JSON_stringify (c_state c2 (w_state w)) = Some s2 →
  JSON_stringify (c_state c2 (f (w_state w))) = Some s2' →
  s1 ≠ s1' →
  s2 ≠ s2' →
  let w2 := exec (subscribe c1 l1;; subscribe c2 l2) w in
  w_trace (exec (dispatch f) w2)
  = w_trace w2 ++ [Called (l_id l1); Called (l_id l2)].
Proof.
  intros Hsubs Hc Hl1 Hl2 Hl1' H1 H1' H2 H2' Hne1 Hne2. cbn zeta.
  assert (Hw2 : exec (subscribe c1 l1;; subscribe c2 l2) w
    = MkWorld (w_state w)
        [(w_next w, Callback c1 l1); (S (w_next w), Callback c2 l2)]
        (S (S (w_next w))) (w_isolate w)
        (<[c_closure c2 := s2]> (<[c_closure c1 := s1]> (prevState w)))
        (w_cells w) ((w_trace w ++ [Called (l_id l1)]) ++ [Called (l_id l2)])).
  { unfold exec, mbind, M_bind, bind. rewrite subscribe_run, Hl1, H1.
    cbn. rewrite subscribe_run. cbn. rewrite Hl2, H2. cbn. by rewrite Hsubs. }
  rewrite Hw2. clear Hw2. set (w2 := MkWorld _ _ _ _ _ _ _).
  unfold exec. rewrite dispatch_run. cbn [w2 w_subs notify snd].
  set (w' := set_state _ _).
  rewrite (on_update_changed _ w' s1'), call_run; [|done|].
  2:{ cbn. rewrite lookup_insert_ne by done. rewrite lookup_insert_eq.
      congruence. }
  subst w'. cbn [cb_listener log w_state set_state set_prevState].
  change (w_state w2) with (w_state w). rewrite Hl1'.
  set (w'' := log _ _).
  rewrite (on_update_changed _ w'' s2'), call_run; [|done|].
  2:{ cbn. rewrite lookup_insert_ne by done. rewrite lookup_insert_eq.
      congruence. }
  subst w''. cbn [cb_listener log w_state w_trace set_prevState].
  cbn. destruct (l_throws l2 (f _)); [destruct (w_isolate w)|];
    subst w2; cbn; by rewrite <-!app_assoc.
Qed.

Lemma separate_controllers_are_both_notified_witness :
  c_closure counter ≠ c_closure counter2
  ∧ count_text 2 ≠ count_text 3
  ∧ w_subs one_each = [(0, Callback counter fn1); (1, Callback counter2 fn2)]
  ∧ w_trace (exec (dispatch append_c) one_each)
    = [Called 1; Called 2; Called 1; Called 2].
Proof.
  assert (Hc : c_closure counter ≠ c_closure counter2) by (vm_compute; discriminate).
  assert (Hne : count_text 2 ≠ count_text 3) by (vm_compute; discriminate).
  split; [exact Hc|]. split; [exact Hne|]. split; [reflexivity|].
  exact (separate_controllers_are_both_notified counter counter2 fn1 fn2
           append_c (engine00 ["a"; "b"] false)
           (count_text 2) (count_text 3) (count_text 2) (count_text 3)
           eq_refl Hc eq_refl eq_refl eq_refl eq_refl eq_refl eq_refl eq_refl
           Hne Hne).
Defined.

(** X7. One update calls a listener at most once per registration: the
    calls a notification adds for a listener never exceed the number of
    callbacks registered for it, whatever the derived states, the
    serializations and the other listeners do. *)
Theorem update_calls_at_most_once_per_registration {T} (w : World T)
    (f : T → T) (id : nat) :
  calls id (w_trace (exec (dispatch f) w))
  ≤ calls id (w_trace w)
    + length (filter (λ x, x = id) (listeners_of (w_subs w))).
Proof.
  unfold exec. rewrite dispatch_run.
  destruct (notify_called (w_subs w) (set_state (f (w_state w)) w))
    as (ls & Hls & Hsub).
  unfold exec in Hls. rewrite !calls_called, Hls, filter_app, length_app.
  cbn [set_state w_trace].
  pose proof (filter_sublist_length id _ _ Hsub). lia.
Qed.

(** ** The product listing slice *)

Import ProductListing.

Section ProductListingFacts.

Context {A F E : Type}.
Implicit Types (state initial : ProductListingState A F E)
  (ps : list (Product A)) (p q : Product A) (c child : ChildProduct A)
  (b : BaseProduct A) (payload : Payload A F) (action : Action A F E).

Lemma find_child_Some id (cs : list (ChildProduct A)) c :
  find_child id cs = Some c → c ∈ cs ∧ c_permanentid c = id.
Proof.
  intros [Hin Heq]%find_some. split.
  - by apply list_elem_of_In.
  - by apply String.eqb_eq.
Qed.

Lemma find_child_None id (cs : list (ChildProduct A)) :
  find_child id cs = None ↔ ∀ c, c ∈ cs → c_permanentid c ≠ id.
Proof.
  split.
  - intros Hnone c Hin%list_elem_of_In Heq.
    apply (find_none _ _ Hnone) in Hin. apply String.eqb_neq in Hin. done.
  - intros Hall. destruct (find_child id cs) as [c|] eqn:Hf; [|done].
    apply find_child_Some in Hf as [Hin Heq]. by apply Hall in Hin.
Qed.

(** [findIndex] stops at the first product that has the child. *)
Lemma findIndex_found id (pre post : list (Product A)) p c i cp :
  (∀ q, q ∈ pre → find_child id (children q) = None) →
  find_child id (children p) = Some c →
  findIndex id (pre ++ p :: post) i cp = (Some (i + length pre), Some c).
Proof.
  revert i cp. induction pre as [|q pre IH]; intros i cp Hpre Hp; cbn.
  - rewrite Hp. by rewrite Nat.add_0_r.
  - rewrite (Hpre q) by left. rewrite IH; [|intros; apply Hpre; by right|done].
    do 2 f_equal. lia.
Qed.

Lemma findIndex_absent id ps i cp :
  (∀ q, q ∈ ps → find_child id (children q) = None) →
  fst (findIndex id ps i cp) = None.
Proof.
  revert i cp. induction ps as [|q ps IH]; intros i cp Hps; [done|]. cbn.
  rewrite (Hps q) by left. apply IH. intros; apply Hps; by right.
Qed.

(** Either no product has the child, or the list splits at the first one
    that has it. *)
Lemma first_parent id ps :
  (∀ q, q ∈ ps → find_child id (children q) = None)
  ∨ ∃ pre p post c, ps = pre ++ p :: post
      ∧ (∀ q, q ∈ pre → find_child id (children q) = None)
      ∧ find_child id (children p) = Some c.
Proof.
  induction ps as [|q ps IH]; [left; by intros q Hq%elem_of_nil|].
  destruct (find_child id (children q)) as [c|] eqn:Hq.
  - right. exists [], q, ps, c. split; [done|]. split; [|done].
    by intros q' Hq'%elem_of_nil.
  - destruct IH as [Hnone|(pre & p & post & c & -> & Hpre & Hp)].
    + left. intros q' [->|Hq']%elem_of_cons; auto.
    + right. exists (q :: pre), p, post, c. split; [done|]. split; [|done].
      intros q' [->|Hq']%elem_of_cons; auto.
Qed.

(** The index [findIndex] answers is the index of a product of the list. *)
Lemma findIndex_lookup id ps i cp j c :
  findIndex id ps i cp = (Some j, Some c) →
  ∃ p, ps !! (j - i) = Some p ∧ i ≤ j.
Proof.
  revert i cp. induction ps as [|q ps IH]; intros i cp; cbn; [done|].
  destruct (find_child id (children q)).
  - intros [= <- <-]. exists q. rewrite Nat.sub_diag. done.
  - intros (p & Hp & Hle)%IH. exists p. split; [|lia].
    replace (j - i) with (S (j - S i)) by lia. done.
Qed.

Lemma splice1_middle {X} (pre post : list X) (x y : X) :
  splice1 (length pre) y (pre ++ x :: post) = pre ++ y :: post.
Proof.
  unfold splice1. rewrite take_app_length. f_equal. f_equal.
  rewrite (cons_middle x), app_assoc.
  apply drop_app_length'. rewrite length_app. cbn. lia.
Qed.

Lemma promote_found state child (pre post : list (Product A)) p c :
  products state = pre ++ p :: post →
  (∀ q, q ∈ pre → find_child (c_permanentid child) (children q) = None) →
  find_child (c_permanentid child) (children p) = Some c →
  promote state child
  = set_products
      (pre ++ Prod (c_permanentid c) (c_fields c) (children p)
                   (totalNumberOfChildren p) (position p) :: post)
      state.
Proof.
  intros Hps Hpre Hp. unfold promote.
  rewrite Hps, (findIndex_found _ pre post p c) by done. cbn [Nat.add].
  rewrite list_lookup_middle by done. by rewrite splice1_middle.
Qed.

Lemma promote_absent state child :
  (∀ q, q ∈ products state →
        find_child (c_permanentid child) (children q) = None) →
  promote state child = state.
Proof.
  intros Hnone%(findIndex_absent _ _ 0 None). unfold promote.
  destruct (findIndex _ _ _ _) as [[j|] cp]; [done|]. by destruct cp.
Qed.

Lemma set_products_same state : set_products (products state) state = state.
Proof. by destruct state. Qed.

Lemma preprocessProduct_lists_itself b pos :
  lists_itself (preprocessProduct b pos).
Proof.
  unfold lists_itself, preprocessProduct.
  destruct (b_children b) as [|c0 cs] eqn:Hcs; [done|]. cbn [length Nat.eqb orb].
  destruct (existsb _ _) eqn:Hex; cbn; intros _.
  - apply existsb_exists in Hex as (c & Hin & Heq).
    exists c. split; [by apply list_elem_of_In|by apply String.eqb_eq].
  - exists (restOfProduct b). split; [left|done].
Qed.

Lemma lookup_preprocessed payload k :
  preprocessed payload !! k
  = (λ b, preprocessProduct b
            (number_add (number_add (getPaginationOffset payload)
                                    (Int (Z.of_nat k)))
                        (Int 1)))
      <$> r_products (response payload) !! k.
Proof. unfold preprocessed. by rewrite list_lookup_imap. Qed.

(** Up to 2^53 in magnitude every integer is a double. *)
Lemma to_double_exact (z : Z) :
  (- 2 ^ 53 ≤ z ≤ 2 ^ 53)%Z → to_double z = Int z.
Proof.
  intros Hz. unfold to_double.
  destruct (Z.ltb_spec (Z.abs z) (2 ^ 53)) as [|Hge]; [done|].
  assert (z = 2 ^ 53 ∨ z = - 2 ^ 53)%Z as [-> | ->] by lia;
    vm_compute; reflexivity.
Qed.

(** While the sums stay within 2^53, the position of the product at index
    [k] is the offset plus [k + 1]. *)
Lemma position_exact (offset : Z) (k : nat) :
  (- 2 ^ 53 ≤ offset)%Z → (offset + Z.of_nat k + 1 ≤ 2 ^ 53)%Z →
  number_add (number_add (Int offset) (Int (Z.of_nat k))) (Int 1)
  = Int (offset + 1 + Z.of_nat k).
Proof.
  intros Hlo Hhi. cbn [number_add]. rewrite to_double_exact by lia.
  cbn [number_add]. rewrite to_double_exact by lia. f_equal. lia.
Qed.

Lemma preprocessProduct_fields b pos :
  preprocessProduct b pos = preprocessProduct b (position (preprocessProduct b pos))
  ∧ permanentid (preprocessProduct b pos) = b_permanentid b
  ∧ fields (preprocessProduct b pos) = b_fields b
  ∧ totalNumberOfChildren (preprocessProduct b pos) = b_totalNumberOfChildren b.
Proof. unfold preprocessProduct. by destruct (_ || _). Qed.

Lemma preprocessProduct_position b pos : position (preprocessProduct b pos) = pos.
Proof. unfold preprocessProduct. by destruct (_ || _). Qed.

Lemma preprocessed_lists_itself payload :
  Forall lists_itself (preprocessed payload).
Proof.
  apply Forall_lookup. intros k p. rewrite lookup_preprocessed.
  destruct (_ !! k) as [b|]; [|done]. intros [= <-].
  apply preprocessProduct_lists_itself.
Qed.

Lemma promote_lists_itself state child :
  Forall lists_itself (products state) →
  Forall lists_itself (products (promote state child)).
Proof.
  intros Hall.
  destruct (first_parent (c_permanentid child) (products state))
    as [Hnone|(pre & p & post & c & Hps & Hpre & Hp)].
  - by rewrite promote_absent.
  - rewrite (promote_found _ _ pre post p c) by done. cbn.
    rewrite Hps in Hall. apply Forall_app in Hall as [Hl Hr].
    apply Forall_cons in Hr as [_ Hr].
    apply Forall_app. split; [done|]. apply Forall_cons. split; [|done].
    intros _. cbn. apply find_child_Some in Hp as [Hin _]. eauto.
Qed.

Lemma set_products_twice state ps ps' :
  set_products ps (set_products ps' state) = set_products ps state.
Proof. done. Qed.

(** In a product to which [preprocessProduct] added the parent, the search
    for the parent's id among the children finds that added child. *)
Lemma preprocessProduct_finds_parent b pos :
  b_children b ≠ [] →
  (∀ c, c ∈ b_children b → c_permanentid c ≠ b_permanentid b) →
  find_child (permanentid (preprocessProduct b pos))
             (children (preprocessProduct b pos))
  = Some (Child (permanentid (preprocessProduct b pos))
                (fields (preprocessProduct b pos))).
Proof.
  intros Hne Hall. unfold preprocessProduct.
  destruct (b_children b) as [|c0 cs] eqn:Hcs; [done|]. cbn [length Nat.eqb orb].
  destruct (existsb _ _) eqn:Hex.
  - apply existsb_exists in Hex as (c & Hin%list_elem_of_In & Heq%String.eqb_eq).
    by apply Hall in Hin.
  - cbn. by rewrite String.eqb_refl.
Qed.

(** An action that fetches nothing and does not reset the listing leaves
    every slot of the listing its position and its children. *)
Lemma keeps_listing_step initial state action :
  keeps_listing action = true →
  position <$> products (productListingReducer initial state action)
  = position <$> products state
  ∧ children <$> products (productListingReducer initial state action)
    = children <$> products state
  ∧ totalNumberOfChildren
      <$> products (productListingReducer initial state action)
    = totalNumberOfChildren <$> products state.
Proof.
  destruct action as [e|e|?|[?|]|?|?|child| | |]; try done. intros _. cbn.
  destruct (first_parent (c_permanentid child) (products state))
    as [Hnone|(pre & p & post & c & Hps & Hpre & Hp)].
  - by rewrite promote_absent.
  - rewrite (promote_found _ _ pre post p c) by done. cbn.
    by rewrite Hps, !fmap_app, !fmap_cons.
Qed.

End ProductListingFacts.

(** X8. When a product listing arrives, the slice holds the products of the
    response, one for one and in the order of the response: the product at
    index [k] is [preprocessProduct] of the response's product at [k], with
    its id, its copied fields and its [totalNumberOfChildren] (also when the
    parent is added to the children), whatever the listing held before. The
    error is cleared, loading ends, and the request id stays. The positions
    are [page * perPage + index + 1] in JavaScript's arithmetic: when
    [page * perPage] is an integer of magnitude at most 2^53 and the last
    position stays within 2^53, the products are numbered from
    [page * perPage + 1] on in steps of one. *)
Theorem fetched_products_are_numbered_from_the_offset {A F E}
    (initial state : ProductListingState A F E) (payload : Payload A F) :
  let state' := productListingReducer initial state
                  (fetchProductListing_fulfilled payload) in
  length (products state') = length (r_products (response payload))
  ∧ (∀ k p, products state' !! k = Some p →
       ∃ b, r_products (response payload) !! k = Some b
            ∧ p = preprocessProduct b (position p)
            ∧ permanentid p = b_permanentid b
            ∧ fields p = b_fields b
            ∧ totalNumberOfChildren p = b_totalNumberOfChildren b)
  ∧ (∀ n m : Z,
       page (pagination (response payload)) = Int n →
       perPage (pagination (response payload)) = Int m →
       (- 2 ^ 53 ≤ n * m)%Z →
       (n * m + Z.of_nat (length (r_products (response payload))) ≤ 2 ^ 53)%Z →
       numbered_from (n * m + 1) (products state'))
  ∧ error state' = None
  ∧ isLoading state' = false
  ∧ facets state' = r_facets (response payload)
  ∧ responseId state' = r_responseId (response payload)
  ∧ requestId state' = requestId state.
Proof.
  cbn. split; [unfold preprocessed; by rewrite length_imap|].
  split; [|split; [|done]].
  - intros k p. rewrite lookup_preprocessed.
    destruct (_ !! k) as [b|]; [|done]. intros [= <-]. exists b.
    split; [done|]. apply preprocessProduct_fields.
  - intros n m Hn Hm Hlo Hhi k p Hk.
    pose proof (lookup_lt_Some _ _ _ Hk) as Hlt.
    unfold preprocessed in Hlt. rewrite length_imap in Hlt.
    rewrite lookup_preprocessed in Hk.
    destruct (_ !! k) as [b|]; [|done]. injection Hk as <-.
    rewrite preprocessProduct_position. unfold getPaginationOffset.
    rewrite Hn, Hm. cbn [number_mul]. rewrite to_double_exact by lia.
    apply position_exact; lia.
Qed.

Lemma fetched_products_are_numbered_from_the_offset_witness :
  position <$> products listed = [Int 1; Int 2]
  ∧ numbered_from 1 (products listed).
Proof.
  split; [reflexivity|].
  exact (proj1 (proj2 (proj2 (fetched_products_are_numbered_from_the_offset
                                empty_listing empty_listing first_page)))
           0%Z 2%Z eq_refl eq_refl ltac:(vm_compute; discriminate)
           ltac:(vm_compute; discriminate)).
Defined.

(** Past 2^53 the additions round, as they do in JavaScript: with an offset
    of 2^53 the first three positions are 2^53, 2^53 again and 2^53 + 4. *)
Lemma positions_round_past_the_safe_integers :
  getPaginationOffset far_page = Int 9007199254740992
  ∧ position <$> preprocessed far_page
    = [Int 9007199254740992; Int 9007199254740992; Int 9007199254740996].
Proof. split; vm_compute; reflexivity. Qed.

(** X9. When more products arrive, the products listed stay as they are
    and the products of the response come after them, one for one and in
    the order of the response: the product at index [length + k] is
    [preprocessProduct] of the response's product at [k]. When the listing
    is numbered from 1, [page * perPage] as JavaScript computes it is the
    number of products listed, and the longer listing has at most 2^53
    products, the longer listing is numbered from 1 as well. The error is
    cleared, loading ends, and the request id stays. *)
Theorem more_products_continue_the_numbering {A F E}
    (initial state : ProductListingState A F E) (payload : Payload A F) :
  let state' := productListingReducer initial state
                  (fetchMoreProducts_fulfilled (Some payload)) in
  take (length (products state)) (products state') = products state
  ∧ length (products state')
    = length (products state) + length (r_products (response payload))
  ∧ (∀ k b, r_products (response payload) !! k = Some b →
       ∃ p, products state' !! (length (products state) + k) = Some p
            ∧ p = preprocessProduct b (position p)
            ∧ permanentid p = b_permanentid b
            ∧ fields p = b_fields b
            ∧ totalNumberOfChildren p = b_totalNumberOfChildren b)
  ∧ (numbered_from 1 (products state) →
     getPaginationOffset payload = Int (Z.of_nat (length (products state))) →
     (Z.of_nat (length (products state)
                + length (r_products (response payload))) ≤ 2 ^ 53)%Z →
     numbered_from 1 (products state'))
  ∧ error state' = None
  ∧ isLoading state' = false
  ∧ facets state' = r_facets (response payload)
  ∧ responseId state' = r_responseId (response payload)
  ∧ requestId state' = requestId state.
Proof.
  cbn. split; [by rewrite take_app_length|].
  split; [unfold preprocessed; by rewrite length_app, length_imap|].
  split; [|split; [|done]].
  - intros k b Hb. rewrite lookup_app_r by lia.
    replace (length (products state) + k - length (products state)) with k
      by lia.
    rewrite lookup_preprocessed, Hb. eexists. split; [reflexivity|].
    apply preprocessProduct_fields.
  - intros Hnum Hoff Hhi k p Hk.
    apply lookup_app_Some in Hk as [Hk|[Hle Hk]]; [by apply Hnum|].
    pose proof (lookup_lt_Some _ _ _ Hk) as Hlt.
    unfold preprocessed in Hlt. rewrite length_imap in Hlt.
    rewrite lookup_preprocessed in Hk.
    destruct (_ !! (k - _)) as [b|]; [|done]. injection Hk as <-.
    rewrite preprocessProduct_position, Hoff, position_exact by lia.
    f_equal. lia.
Qed.

Lemma more_products_continue_the_numbering_witness :
  numbered_from 1 (products listed)
  ∧ getPaginationOffset second_page = Int (Z.of_nat (length (products listed)))
  ∧ permanentid
      <$> products (productListingReducer empty_listing listed
                      (fetchMoreProducts_fulfilled (Some second_page)))
    = ["shirt"; "mug"; "cap"]
  ∧ position
      <$> products (productListingReducer empty_listing listed
                      (fetchMoreProducts_fulfilled (Some second_page)))
    = [Int 1; Int 2; Int 3]
  ∧ numbered_from 1
      (products (productListingReducer empty_listing listed
                   (fetchMoreProducts_fulfilled (Some second_page)))).
Proof.
  assert (Hnum : numbered_from 1 (products listed)).
  { intros [|[|k]] p; cbn; intros [= <-]; reflexivity. }
  split; [exact Hnum|]. split; [reflexivity|]. split; [reflexivity|].
  split; [reflexivity|].
  exact (proj1 (proj2 (proj2 (proj2 (more_products_continue_the_numbering
                                       empty_listing listed second_page))))
           Hnum eq_refl ltac:(vm_compute; discriminate)).
Defined.

(** X10. Every listed product with children has itself among them, and the
    reducer keeps it so: when this holds of the products of the state and
    of the initial state, it holds after any sequence of actions.
    [preprocessProduct] establishes it for what a fetch brings, and
    [promoteChildToParent] gives the slot the id of one of its own
    children. *)
Theorem listed_products_list_themselves {A F E}
    (initial state : ProductListingState A F E) (actions : list (Action A F E)) :
  Forall lists_itself (products initial) →
  Forall lists_itself (products state) →
  Forall lists_itself
    (products (fold_left (productListingReducer initial) actions state)).
Proof.
  intros Hinit. revert state.
  induction actions as [|a actions IH]; intros state Hstate; [done|].
  cbn [fold_left]. apply IH.
  destruct a as [e|e|payload|[payload|]|?|?|child| | |]; cbn; try done.
  - apply preprocessed_lists_itself.
  - apply Forall_app. split; [done|apply preprocessed_lists_itself].
  - by apply promote_lists_itself.
Qed.

Lemma listed_products_list_themselves_witness :
  Forall lists_itself (products empty_listing)
  ∧ (children <$> products listed)
    = [[Child "shirt" "Shirt"; Child "shirt-red" "Red shirt";
        Child "shirt-blue" "Blue shirt"]; []]
  ∧ Forall lists_itself
      (products
         (fold_left (productListingReducer empty_listing)
            [fetchProductListing_fulfilled first_page;
             promoteChildToParent (Child "shirt-blue" "");
             fetchMoreProducts_fulfilled (Some second_page)]
            empty_listing)).
Proof.
  split; [apply Forall_nil_2|]. split; [reflexivity|].
  exact (listed_products_list_themselves empty_listing empty_listing _
           (Forall_nil_2 _) (Forall_nil_2 _)).
Defined.

(** X11. Promoting a child that no listed product has among its children
    changes nothing. *)
Theorem promotion_of_unknown_child_changes_nothing {A F E}
    (initial state : ProductListingState A F E) (child : ChildProduct A) :
  (∀ p c, p ∈ products state → c ∈ children p →
          c_permanentid c ≠ c_permanentid child) →
  productListingReducer initial state (promoteChildToParent child) = state.
Proof.
  intros Hnone. cbn. apply promote_absent.
  intros q Hq. apply find_child_None. intros c Hc. by apply (Hnone q).
Qed.

Lemma promotion_of_unknown_child_changes_nothing_witness :
  productListingReducer empty_listing listed
    (promoteChildToParent (Child "shirt-green" "Green shirt"))
  = listed.
Proof.
  apply (promotion_of_unknown_child_changes_nothing empty_listing listed).
  intros p c Hp Hc. vm_compute in Hp.
  repeat (apply elem_of_cons in Hp as [->|Hp]);
    [| |by apply elem_of_nil in Hp]; vm_compute in Hc.
  - repeat (apply elem_of_cons in Hc as [->|Hc]); try discriminate.
    by apply elem_of_nil in Hc.
  - by apply elem_of_nil in Hc.
Defined.

(** X12. A promotion rewrites one slot: the first product, in list order,
    that has a child with the id of the payload. The slot takes the id and
    the copied fields of that listed child (the first with the id; the
    fields the payload carries are not used) and keeps its position, its
    children and its [totalNumberOfChildren]; the products before and after
    it, and the rest of the state, stay as they are. *)
Theorem promotion_rewrites_the_first_parent {A F E}
    (initial state : ProductListingState A F E) (child c : ChildProduct A)
    (earlier later : list (Product A)) (p : Product A) :
  products state = earlier ++ p :: later →
  (∀ q, q ∈ earlier → find_child (c_permanentid child) (children q) = None) →
  find_child (c_permanentid child) (children p) = Some c →
  productListingReducer initial state (promoteChildToParent child)
  = State (error state) (isLoading state)
      (earlier
       ++ Prod (c_permanentid child) (c_fields c) (children p)
               (totalNumberOfChildren p) (position p)
       :: later)
      (facets state) (responseId state) (requestId state).
Proof.
  intros Hps Hpre Hp. cbn.
  rewrite (promote_found _ _ earlier later p c) by done.
  by apply find_child_Some in Hp as [_ ->].
Qed.

Lemma promotion_rewrites_the_first_parent_witness :
  products listed
  = [] ++ Prod "shirt" "Shirt"
            [Child "shirt" "Shirt"; Child "shirt-red" "Red shirt";
             Child "shirt-blue" "Blue shirt"] 2 (Int 1)
       :: [Prod "mug" "Mug" [] 0 (Int 2)]
  ∧ products (productListingReducer empty_listing listed
                (promoteChildToParent (Child "shirt-blue" "not the name")))
    = [Prod "shirt-blue" "Blue shirt"
            [Child "shirt" "Shirt"; Child "shirt-red" "Red shirt";
             Child "shirt-blue" "Blue shirt"] 2 (Int 1);
       Prod "mug" "Mug" [] 0 (Int 2)].
Proof.
  split; [reflexivity|].
  exact (f_equal products
           (promotion_rewrites_the_first_parent empty_listing listed
              (Child "shirt-blue" "not the name")
              (Child "shirt-blue" "Blue shirt") []
              [Prod "mug" "Mug" [] 0 (Int 2)]
              (Prod "shirt" "Shirt"
                    [Child "shirt" "Shirt"; Child "shirt-red" "Red shirt";
                     Child "shirt-blue" "Blue shirt"] 2 (Int 1))
              eq_refl
              (λ q Hq, False_ind _ (proj1 (elem_of_nil q) Hq))
              eq_refl)).
Defined.

(** X13. Promoting the same child twice is promoting it once. *)
Theorem promotion_is_idempotent {A F E}
    (initial state : ProductListingState A F E) (child : ChildProduct A) :
  productListingReducer initial
    (productListingReducer initial state (promoteChildToParent child))
    (promoteChildToParent child)
  = productListingReducer initial state (promoteChildToParent child).
Proof.
  cbn.
  destruct (first_parent (c_permanentid child) (products state))
    as [Hnone|(pre & p & post & c & Hps & Hpre & Hp)].
  - by rewrite !(promote_absent state child) by done.
  - rewrite (promote_found state _ pre post p c) by done.
    set (p' := Prod _ _ _ _ _).
    by rewrite (promote_found (set_products _ state) child pre post p' c).
Qed.

(** X14. Promoting a child and then the former parent brings the listing
    back, for a product as [preprocessProduct] makes it (the search for the
    product's own id among its children finds the product's copy): the
    state after the two promotions is the state before them. The products
    before it must have neither of the two ids among their children. *)
Theorem promotion_round_trip {A F E}
    (initial state : ProductListingState A F E) (child c : ChildProduct A)
    (earlier later : list (Product A)) (p : Product A) (any : A) :
  products state = earlier ++ p :: later →
  (∀ q, q ∈ earlier →
        find_child (c_permanentid child) (children q) = None
        ∧ find_child (permanentid p) (children q) = None) →
  find_child (c_permanentid child) (children p) = Some c →
  find_child (permanentid p) (children p)
  = Some (Child (permanentid p) (fields p)) →
  productListingReducer initial
    (productListingReducer initial state (promoteChildToParent child))
    (promoteChildToParent (Child (permanentid p) any))
  = state.
Proof.
  intros Hps Hpre Hp Hself. cbn.
  rewrite (promote_found state _ earlier later p c);
    [|done|intros; by apply Hpre|done].
  set (p' := Prod _ _ _ _ _).
  rewrite (promote_found (set_products _ state) _ earlier later p'
             (Child (permanentid p) (fields p)));
    [|done|intros; by apply Hpre|done].
  cbn. rewrite set_products_twice. destruct p. cbn. rewrite <-Hps.
  apply set_products_same.
Qed.

Lemma promotion_round_trip_witness :
  productListingReducer empty_listing
    (productListingReducer empty_listing listed
       (promoteChildToParent (Child "shirt-red" "")))
    (promoteChildToParent (Child "shirt" ""))
  = listed
  ∧ productListingReducer empty_listing listed
      (promoteChildToParent (Child "shirt-red" ""))
    ≠ listed.
Proof.
  split; [|vm_compute; discriminate].
  exact (promotion_round_trip empty_listing listed (Child "shirt-red" "")
           (Child "shirt-red" "Red shirt") [] [Prod "mug" "Mug" [] 0 (Int 2)]
           (Prod "shirt" "Shirt"
                 [Child "shirt" "Shirt"; Child "shirt-red" "Red shirt";
                  Child "shirt-blue" "Blue shirt"] 2 (Int 1)) ""
           eq_refl
           (λ q Hq, False_ind _ (proj1 (elem_of_nil q) Hq))
           eq_refl eq_refl).
Defined.

(** X15. Promotions, pending and rejected fetches, fulfilled fetches
    without payload and foreign actions never move a product: after any
    sequence of them every slot of the listing has the position, the
    children and the [totalNumberOfChildren] it had, so the listing has the
    same length and the same numbering. *)
Theorem slots_survive_promotions {A F E}
    (initial state : ProductListingState A F E) (actions : list (Action A F E)) :
  forallb keeps_listing actions = true →
  let state' := fold_left (productListingReducer initial) actions state in
  position <$> products state' = position <$> products state
  ∧ children <$> products state' = children <$> products state
  ∧ totalNumberOfChildren <$> products state'
    = totalNumberOfChildren <$> products state.
Proof.
  revert state. induction actions as [|a actions IH]; intros state; [done|].
  cbn [forallb fold_left]. intros [Ha Hrest]%andb_prop.
  destruct (keeps_listing_step initial state a Ha) as (Hp & Hc & Ht).
  cbn zeta. rewrite <-Hp, <-Hc, <-Ht. by apply IH.
Qed.

Lemma slots_survive_promotions_witness :
  position
    <$> products
          (fold_left (productListingReducer empty_listing)
             [promoteChildToParent (Child "shirt-red" "");
              fetchMoreProducts_pending "request-2";
              fetchMoreProducts_rejected (Some "timeout");
              promoteChildToParent (Child "shirt-blue" "")]
             listed)
  = [Int 1; Int 2]
  ∧ permanentid
      <$> products
            (fold_left (productListingReducer empty_listing)
               [promoteChildToParent (Child "shirt-red" "");
                fetchMoreProducts_pending "request-2";
                fetchMoreProducts_rejected (Some "timeout");
                promoteChildToParent (Child "shirt-blue" "")]
               listed)
    = ["shirt-blue"; "mug"].
Proof.
  split; [|reflexivity].
  exact (proj1 (slots_survive_promotions empty_listing listed
                  [promoteChildToParent (Child "shirt-red" "");
                   fetchMoreProducts_pending "request-2";
                   fetchMoreProducts_rejected (Some "timeout");
                   promoteChildToParent (Child "shirt-blue" "")]
                  eq_refl)).
Defined.

(** ** JSON data on the heap *)

Section AllocFacts.

Implicit Types (h H : gmap loc jsobj) (stack : list loc) (v : jsval).

Lemma union_subseteq_ranges h1 h2 H (a b c : loc) :
  (∀ l, is_Some (h1 !! l) → a ≤ l < b) →
  (∀ l, is_Some (h2 !! l) → b ≤ l < c) →
  h1 ∪ h2 ⊆ H → h1 ⊆ H ∧ h2 ⊆ H.
Proof.
  intros H1 H2 Hsub.
  assert (h1 ##ₘ h2).
  { apply map_disjoint_spec. intros l x y Hx Hy.
    assert (a ≤ l < b) by (apply H1; eauto).
    assert (b ≤ l < c) by (apply H2; eauto). lia. }
  split; (etrans; [|exact Hsub]).
  - apply map_union_subseteq_l.
  - by apply map_union_subseteq_r.
Qed.

Lemma alloc_all_spec {X Y} (f : X → loc → Y * gmap loc jsobj * loc)
    (g : nat → gmap loc jsobj → list loc → Y → option X)
    (xs : list X) :
  Forall (λ x, ∀ m,
            m ≤ snd (f x m)
            ∧ (∀ l, is_Some (snd (fst (f x m)) !! l) → m ≤ l < snd (f x m))
            ∧ ∀ H stack fuel, snd (fst (f x m)) ⊆ H →
                (∀ l, l ∈ stack → l < m ∨ snd (f x m) ≤ l) →
                snd (f x m) - m ≤ fuel →
                g fuel H stack (fst (fst (f x m))) = Some x) xs →
  ∀ m,
    m ≤ snd (alloc_all f xs m)
    ∧ (∀ l, is_Some (snd (fst (alloc_all f xs m)) !! l) →
            m ≤ l < snd (alloc_all f xs m))
    ∧ ∀ H stack fuel, snd (fst (alloc_all f xs m)) ⊆ H →
        (∀ l, l ∈ stack → l < m ∨ snd (alloc_all f xs m) ≤ l) →
        snd (alloc_all f xs m) - m ≤ fuel →
        mapM (g fuel H stack) (fst (fst (alloc_all f xs m))) = Some xs.
Proof.
  induction 1 as [|x xs Hx _ IH]; intros m.
  { cbn. split; [done|]. split; [|done].
    intros l [? Hl]. by rewrite lookup_empty in Hl. }
  cbn [alloc_all].
  destruct (Hx m) as (Hle1 & Hdom1 & Hun1).
  destruct (f x m) as [[y h1] m1]. cbn [fst snd] in *.
  destruct (IH m1) as (Hle2 & Hdom2 & Hun2).
  destruct (alloc_all f xs m1) as [[ys h2] m2]. cbn [fst snd] in *.
  split; [lia|]. split.
  - intros l [o Hl]. apply lookup_union_Some_raw in Hl as [Hl|[_ Hl]].
    + assert (m ≤ l < m1) by (apply Hdom1; eauto). lia.
    + assert (m1 ≤ l < m2) by (apply Hdom2; eauto). lia.
  - intros H stack fuel Hsub Hstack Hfuel.
    destruct (union_subseteq_ranges h1 h2 H m m1 m2 Hdom1 Hdom2 Hsub)
      as [Hsub1 Hsub2].
    cbn. rewrite Hun1; [|done| |lia].
    2:{ intros l Hl. destruct (Hstack l Hl); lia. }
    cbn. rewrite Hun2; [done|done| |lia].
    intros l Hl. destruct (Hstack l Hl); lia.
Qed.

Lemma alloc_allocated (t : jtree) : ∀ n, allocated t n (alloc t n).
Proof.
  induction t as [|b|z|s|items IH|fields IH] using jtree_subtrees_ind;
    intros n.
  1-4: split; [done|]; split;
       [intros l [? Hl]; cbn in Hl; by rewrite lookup_empty in Hl
       |intros H stack fuel _ _ _; by destruct fuel].
  - unfold allocated. cbn [alloc].
    destruct (alloc_all_spec alloc unfold_val items IH (S n))
      as (Hle & Hdom & Hun).
    destruct (alloc_all alloc items (S n)) as [[vs h] n']. cbn [fst snd] in *.
    split; [lia|]. split.
    + intros l [o Hl]. destruct (decide (l = n)) as [->|Hne]; [lia|].
      rewrite lookup_insert_ne in Hl by done.
      assert (S n ≤ l < n') by (apply Hdom; eauto). lia.
    + intros H stack fuel Hsub Hstack Hfuel.
      destruct fuel as [|fuel]; [lia|]. cbn [unfold_val].
      rewrite decide_False.
      2:{ intros Hin. destruct (Hstack n Hin); lia. }
      assert (Hn : H !! n = Some (JArr vs)).
      { eapply lookup_weaken; [|exact Hsub]. by rewrite lookup_insert_eq. }
      rewrite Hn. rewrite Hun; [done| | |lia].
      * etrans; [|exact Hsub]. apply insert_subseteq.
        destruct (h !! n) eqn:Hh; [|done].
        assert (S n ≤ n < n') by (apply Hdom; eauto). lia.
      * intros l [->|Hl]%elem_of_cons; [lia|].
        destruct (Hstack l Hl); lia.
  - unfold allocated. cbn [alloc].
    set (f := λ (kt : string * jtree) m,
                let '(v, h, m') := alloc (snd kt) m in ((fst kt, v), h, m')).
    destruct (alloc_all_spec f
                (λ fuel H stack (kv : string * jsval),
                   pair (fst kv) <$> unfold_val fuel H stack (snd kv))
                fields) with (m := S n) as (Hle & Hdom & Hun).
    { eapply Forall_impl; [exact IH|]. intros [k t] Ht m. cbn in Ht.
      destruct (Ht m) as (H1 & H2 & H3). subst f. cbn.
      destruct (alloc t m) as [[v h] m']. cbn [fst snd] in *.
      split; [done|]. split; [done|].
      intros H stack fuel Hsub Hstack Hfuel. by rewrite H3. }
    destruct (alloc_all f fields (S n)) as [[vs h] n']. cbn [fst snd] in *.
    split; [lia|]. split.
    + intros l [o Hl]. destruct (decide (l = n)) as [->|Hne]; [lia|].
      rewrite lookup_insert_ne in Hl by done.
      assert (S n ≤ l < n') by (apply Hdom; eauto). lia.
    + intros H stack fuel Hsub Hstack Hfuel.
      destruct fuel as [|fuel]; [lia|]. cbn [unfold_val].
      rewrite decide_False.
      2:{ intros Hin. destruct (Hstack n Hin); lia. }
      assert (Hn : H !! n = Some (JObj vs)).
      { eapply lookup_weaken; [|exact Hsub]. by rewrite lookup_insert_eq. }
      rewrite Hn. rewrite Hun; [done| | |lia].
      * etrans; [|exact Hsub]. apply insert_subseteq.
        destruct (h !! n) eqn:Hh; [|done].
        assert (S n ≤ n < n') by (apply Hdom; eauto). lia.
      * intros l [->|Hl]%elem_of_cons; [lia|].
        destruct (Hstack l Hl); lia.
Qed.

(** The tree built on the heap is the tree read back. *)
Lemma unfold_of_tree (t : jtree) : unfold (of_tree t) = Some t.
Proof.
  destruct (alloc_allocated t 0) as (Hle & Hdom & Hun).
  unfold of_tree. destruct (alloc t 0) as [[v h] n']. cbn [fst snd] in *.
  rewrite <-(unfold_fuel_enough _ (S (size h) + n')) by (cbn; lia).
  apply Hun; [done| |lia]. by intros l Hl%elem_of_nil.
Qed.

End AllocFacts.

Lemma stringify_of_tree (t : jtree) : JSON_stringify (of_tree t) = Some (print t).
Proof. unfold JSON_stringify. by rewrite unfold_of_tree. Qed.

(** ** The core range facet *)

Import RangeFacet.

Section RangeFacetFacts.

Context {T : Type}.
Variable facetId : string.
Variable getRequest : T → RangeFacetRequest.
Variable baseFacetResponseSelector : T → string → option RangeFacetResponse.
Variable isFacetLoadingResponseSelector : T → bool.
Variable reducer : facet_action → T → T.

(** The facet of these props and selectors. *)
Local Abbreviation state :=
  (RangeFacet.state facetId getRequest baseFacetResponseSelector
                    isFacetLoadingResponseSelector).
Local Abbreviation extend :=
  (RangeFacet.extend facetId getRequest baseFacetResponseSelector
                     isFacetLoadingResponseSelector).
Local Abbreviation shown :=
  (RangeFacet.shown facetId getRequest baseFacetResponseSelector
                    isFacetLoadingResponseSelector).
Local Abbreviation changes :=
  (RangeFacet.changes facetId getRequest baseFacetResponseSelector
                      isFacetLoadingResponseSelector).

Implicit Types (w : World T) (c : controller T) (l : listener T) (f : T → T).

Lemma facet_stringify c (st : T) :
  JSON_stringify (c_state (extend c) st) = Some (print (TObj (state st))).
Proof. apply stringify_of_tree. Qed.

(** The object of the getter is determined by the values, the sort
    criterion and the loading flag, and determines them: [facetId] is fixed
    and [hasActiveValues] follows from the values. A missing response and a
    response without values show the same. *)
Lemma state_shown (st st' : T) : state st' = state st ↔ shown st' = shown st.
Proof.
  unfold RangeFacet.state, RangeFacet.shown. split.
  - intros Heq. injection Heq as Hvalues Hsort _ Hloading.
    assert (Inj (=) (=) TObj) by (intros ?? [= ->]; done).
    apply (inj (fmap TObj)) in Hvalues. congruence.
  - intros [= -> -> ->]. done.
Qed.

(** The same in terms of the text: [changes] counts the updates after
    which the facet shows something else. *)
Lemma changes_shown (st st' : T) :
  changes st st' = if decide (print (TObj (state st')) = print (TObj (state st)))
                   then 0 else 1.
Proof. unfold RangeFacet.changes. by destruct (decide _); case_bool_decide. Qed.

(** One store update seen by the only callback of the store, a facet's,
    whose listener returns: the callback calls the listener when the text
    of the facet's state is not the baseline, and the new text is the
    baseline afterwards. *)
Lemma facet_dispatch c l f w handle :
  w_subs w = [(handle, Callback (extend c) l)] →
  prevState w !! c_closure c = Some (print (TObj (state (w_state w)))) →
  l_throws l (f (w_state w)) = false →
  outcome (dispatch f) w = Ok tt
  ∧ w_state (exec (dispatch f) w) = f (w_state w)
  ∧ w_subs (exec (dispatch f) w) = w_subs w
  ∧ calls (l_id l) (w_trace (exec (dispatch f) w))
    = calls (l_id l) (w_trace w) + changes (w_state w) (f (w_state w))
  ∧ prevState (exec (dispatch f) w) !! c_closure c
    = Some (print (TObj (state (f (w_state w))))).
Proof.
  intros Hsubs Hprev Hl. unfold outcome, exec, RangeFacet.changes.
  rewrite dispatch_run, Hsubs. cbn [notify snd].
  set (w0 := set_state (f (w_state w)) w).
  rewrite on_update_run. cbn [cb_this cb_listener].
  change (w_state w0) with (f (w_state w)). rewrite facet_stringify.
  change (prevState w0) with (prevState w).
  change (c_closure (extend c)) with (c_closure c). rewrite Hprev.
  case_bool_decide as Heq.
  - apply (inj Some) in Heq. rewrite bool_decide_eq_true_2 by done.
    cbn. rewrite Hprev, Heq. repeat split; try done; lia.
  - rewrite bool_decide_eq_false_2 by congruence.
    rewrite call_run. cbn. rewrite Hl. cbn.
    rewrite lookup_insert_eq, calls_snoc_same. repeat split; try done; lia.
Qed.

(** X16. A range facet tells its listener of exactly the changes of what
    it shows. The facet is the base controller with the facet's own [state]
    getter. Its values are taken to be objects of JSON data, as the search
    response gives them, so the state has a text and [subscribe] returns
    whenever the listener does. For the first subscription of the facet, a
    store update that leaves the values ([response.values], or none when
    there is no response), the sort criterion of the request and the
    loading flag as they were does not call the listener, and an update
    that changes one of them calls it exactly once (given that the
    notification reaches the callback). *)
Theorem range_facet_notifies_exactly_on_change c l f w :
  (∀ r, r ∈ w_subs w → c_closure (cb_this (snd r)) ≠ c_closure c) →
  l_id l ∉ listeners_of (w_subs w) →
  l_throws l (w_state w) = false →
  w_isolate w = true
  ∨ (∀ r, r ∈ w_subs w → l_throws (cb_listener (snd r)) (f (w_state w)) = false) →
  let w1 := exec (subscribe (extend c) l) w in
  let unchanged :=
    RangeFacet.current_values facetId baseFacetResponseSelector (f (w_state w))
    = RangeFacet.current_values facetId baseFacetResponseSelector (w_state w)
    ∧ sortCriteria (getRequest (f (w_state w)))
      = sortCriteria (getRequest (w_state w))
    ∧ isFacetLoadingResponseSelector (f (w_state w))
      = isFacetLoadingResponseSelector (w_state w) in
  outcome (subscribe (extend c) l) w = Ok (w_next w)
  ∧ (unchanged →
     calls (l_id l) (w_trace (exec (dispatch f) w1))
     = calls (l_id l) (w_trace w1))
  ∧ (¬ unchanged →
     calls (l_id l) (w_trace (exec (dispatch f) w1))
     = S (calls (l_id l) (w_trace w1))).
Proof.
  intros Hcells Hid Hl Hall w1 unchanged.
  assert (Hiff : unchanged ↔ state (f (w_state w)) = state (w_state w)).
  { rewrite state_shown. unfold unchanged, RangeFacet.shown. split.
    - by intros (-> & -> & ->).
    - by intros [= -> -> ->]. }
  clearbody unchanged.
  assert (Hrun : subscribe (extend c) l w
    = (Ok (w_next w),
       MkWorld (w_state w) (w_subs w ++ [(w_next w, Callback (extend c) l)])
         (S (w_next w)) (w_isolate w)
         (<[c_closure c := print (TObj (state (w_state w)))]> (prevState w))
         (w_cells w) (w_trace w ++ [Called (l_id l)]))).
  { by rewrite subscribe_run, Hl, facet_stringify. }
  assert (Hout : outcome (subscribe (extend c) l) w = Ok (w_next w))
    by (unfold outcome; by rewrite Hrun).
  assert (Hw1 : w1 = snd (subscribe (extend c) l w)) by done.
  rewrite Hrun in Hw1. cbn [snd] in Hw1. clearbody w1. subst w1.
  set (w1 := MkWorld _ _ _ _ _ _ _).
  split; [done|]. split.
  - intros Hsame%Hiff. unfold exec. rewrite dispatch_run.
    apply (notify_suppressed (extend c) (l_id l)
             (print (TObj (state (w_state w))))
             (w_subs w1) (set_state (f (w_state w1)) w1)).
    + intros r [Hr|Hr%list_elem_of_singleton]%elem_of_app Hor; [|by subst r].
      exfalso. destruct Hor as [Hc|Hl'].
      * by apply (Hcells r).
      * apply Hid, list_elem_of_fmap. eauto.
    + cbn [set_state w_state w1]. by rewrite facet_stringify, Hsame.
    + cbn. by rewrite lookup_insert_eq.
  - intros Hdiff.
    apply (first_registration_is_notified (extend c) l f w1 (w_subs w) []
             (w_next w)); try done.
    + rewrite app_nil_r. intros r Hr Heq. apply Hid, list_elem_of_fmap. eauto.
    + intros s. cbn [w1 w_state prevState].
      rewrite facet_stringify. intros <-%(inj Some).
      change (c_closure (extend c)) with (c_closure c).
      rewrite lookup_insert_eq. intros Heq%(inj Some).
      apply Hdiff, Hiff. apply print_inj in Heq. congruence.
Qed.


End RangeFacetFacts.

Import Scenario3.

Lemma range_facet_notifies_exactly_on_change_witness :
  outcome (subscribe price_facet watcher) search_engine = Ok 0
  ∧ current_values "price" (λ st _, facet_response st)
      (search_reducer (deselectAllFacetValues "price") searched)
    ≠ current_values "price" (λ st _, facet_response st) searched
  ∧ calls 7 (w_trace watched) = 1
  ∧ calls 7 (w_trace (exec (dispatch (search_reducer
                                        (deselectAllFacetValues "price")))
                        watched)) = 2.
Proof.
  assert (Hdiff : current_values "price" (λ st _, facet_response st)
                    (search_reducer (deselectAllFacetValues "price") searched)
                  ≠ current_values "price" (λ st _, facet_response st) searched)
    by (vm_compute; discriminate).
  destruct (range_facet_notifies_exactly_on_change "price" request
              (λ st _, facet_response st) loading
              (Ctrl 0 (λ _, empty_object)) watcher
              (search_reducer (deselectAllFacetValues "price")) search_engine
              (λ r Hr, False_ind _ (proj1 (elem_of_nil r) Hr))
              (not_elem_of_nil _) eq_refl
              (or_intror (λ r Hr, False_ind _ (proj1 (elem_of_nil r) Hr))))
    as (Hout & _ & Hchanged).
  split; [exact Hout|]. split; [exact Hdiff|].
  assert (Hone : calls 7 (w_trace watched) = 1) by (vm_compute; reflexivity).
  split; [exact Hone|].
  rewrite <-Hone. apply Hchanged. intros [Hvalues _]. exact (Hdiff Hvalues).
Defined.

